(** * Sparkground: expression forest, evaluator and type substitution

    A shallow embedding of the language engine of the Sparkground block
    editor: static types and their substitution ([typechecker/type.ts],
    [typechecker/type-substitution.ts]), the forest of expression trees
    ([editor/trees/trees.ts]), the structural mutations on it
    ([editor/trees/mutate.ts]) and the call-by-value evaluator
    ([evaluator/evaluate.ts]). *)

From Stdlib Require Import String List ZArith Lia Bool.
From stdpp Require Import base option list gmap strings pretty.

Local Open Scope string_scope.
Local Open Scope list_scope.
Set Warnings "-register-all".

(* ===================================================================== *)
(** * Static types ([typechecker/type.ts]) *)
(* ===================================================================== *)

(** [TypeVarSlot = TypeNameHole | TypeNameBinding]: the two objects carrying
    a [kind] field. *)
Inductive TypeVarSlot : Set :=
| TypeNameHole
| TypeNameBinding (id : string).

(** [Type = ConcreteType | ForallType | TypeVar | TypeVarSlot].
    A concrete type carries its [tag], the optional parameter list [of] and,
    for the ["Function*"] tag, the optional argument-count bounds. *)
Inductive Ty : Type :=
| Concrete (tag : string) (of_ : option (list Ty))
           (minArgCount maxArgCount : option nat)
| ForallType (forall_ : list TypeVarSlot) (body : Ty)
| TypeVar (var : string)
| Slot (slot : TypeVarSlot).

(** [{ tag }] *)
Definition Tag (tag : string) : Ty := Concrete tag None None None.

Definition Number : Ty := Tag "Number".

Definition isConcreteType (type : Ty) : bool :=
  match type with Concrete _ _ _ _ => true | _ => false end.

Definition isForallType (type : Ty) : bool :=
  match type with ForallType _ _ => true | _ => false end.

Definition isTypeNameHole (type : Ty) : bool :=
  match type with Slot TypeNameHole => true | _ => false end.

Definition isTypeNameBinding (type : Ty) : bool :=
  match type with Slot (TypeNameBinding _) => true | _ => false end.

Definition isTypeVarSlot (type : Ty) : bool :=
  isTypeNameHole type || isTypeNameBinding type.

(** ["var" in type] *)
Definition isTypeVar (type : Ty) : bool :=
  match type with TypeVar _ => true | _ => false end.

(** The property read [type.var]; [None] is JavaScript's [undefined]. *)
Definition var_of (type : Ty) : option string :=
  match type with TypeVar v => Some v | _ => None end.

Fixpoint typeParams (type : Ty) : list Ty :=
  match type with
  | TypeVar _ | Slot _ => []
  | ForallType _ body => typeParams body
  | Concrete _ of_ _ _ => default [] of_
  end.

(** [forallType.forall.some((slot) => isTypeVar(slot) && slot.var === typeVarName)].
    The slots of a [ForallType] are [TypeVarSlot]s; the test looks at each
    of them as a [Type]. *)
Definition isTypeVarBoundBy (typeVarName : string) (forall_ : list TypeVarSlot) : bool :=
  existsb (fun slot =>
             isTypeVar (Slot slot) &&
             bool_decide (var_of (Slot slot) = Some typeVarName))
          forall_.

(** [{ tag: "Any" }] and [{ tag: "Never" }] *)
Definition Any : Ty := Tag "Any".
Definition Never : Ty := Tag "Never".

(** [typeParams(fnType).slice(0, -1)] *)
Definition functionParamTypes (fnType : Ty) : list Ty :=
  removelast (typeParams fnType).

(** [typeParams(fnType).at(-1) ?? Any] *)
Definition functionResultType (fnType : Ty) : Ty :=
  default Any (last (typeParams fnType)).

(** [isConcreteType(type) && type.tag === tag] *)
Definition hasTag (type : Ty) (tag : string) : bool :=
  match type with
  | Concrete tag' _ _ _ => bool_decide (tag' = tag)
  | _ => false
  end.

(** [typeStructureMap(t, fn)]: [fn] is applied to the immediate type
    parameters; the result of the concrete case is the object
    [{ tag, of }]. *)
Fixpoint typeStructureMap (t : Ty) (fn : Ty -> Ty) : Ty :=
  match t with
  | TypeVar _ | Slot _ => t
  | ForallType forall_ body => ForallType forall_ (typeStructureMap body fn)
  | Concrete tag _ _ _ => Concrete tag (Some (map fn (typeParams t))) None None
  end.

(* ===================================================================== *)
(** * Substitution ([typechecker/type-substitution.ts]) *)
(* ===================================================================== *)

(** [TypeSubstitution = Record<string, Type>]: a plain object; the finite
    map holds its own properties, from the names of type variables to
    types, and its prototype is [Object.prototype]. *)
Abbreviation TypeSubstitution := (gmap string Ty).

(** The names of the properties of [Object.prototype], which every plain
    object inherits: eleven functions and the accessor [__proto__], which
    gives the prototype itself.  None of them is [null] or [undefined]. *)
Definition objectPrototypeKeys : list string :=
  ["constructor"; "__defineGetter__"; "__defineSetter__"; "hasOwnProperty";
   "__lookupGetter__"; "__lookupSetter__"; "isPrototypeOf";
   "propertyIsEnumerable"; "toString"; "valueOf"; "__proto__";
   "toLocaleString"].

(** What [sub[name]] gives on a plain object: an own property, a property
    inherited from [Object.prototype], or [undefined]. *)
Inductive Property (A : Type) : Type :=
| OwnProperty (a : A)
| InheritedProperty
| NoProperty.
Arguments OwnProperty {A} a.
Arguments InheritedProperty {A}.
Arguments NoProperty {A}.

Definition getProperty (sub : TypeSubstitution) (name : string) : Property Ty :=
  match sub !! name with
  | Some t => OwnProperty t
  | None =>
      if bool_decide (name ∈ objectPrototypeKeys) then InheritedProperty
      else NoProperty
  end.

(** [list.map(f)] for an [f] whose result may be outside the type of the
    elements: the list of the results, when every one is inside. *)
Section MapInside.
Context {A B : Type} (f : A -> option B).

Fixpoint map_inside (l : list A) : option (list B) :=
  match l with
  | [] => Some []
  | x :: l' =>
      match f x with
      | None => None
      | Some y =>
          match map_inside l' with
          | None => None
          | Some ys => Some (y :: ys)
          end
      end
  end.

End MapInside.

(** [typeSubstitute(type, sub)].  The function always returns; [Some t] is
    the Type it returns.  [None] says that the value it returns is not a
    Type: [sub[type.var] ?? type] has read, for a type variable whose name
    is no own key of [sub], a property inherited from [Object.prototype],
    which is neither [null] nor [undefined], and the value returned holds
    it where a type belongs. *)
Fixpoint typeSubstitute (type : Ty) (sub : TypeSubstitution) : option Ty :=
  match type with
  | Slot _ => Some type
  | TypeVar v =>
      match getProperty sub v with
      | OwnProperty t => Some t
      | InheritedProperty => None
      | NoProperty => Some type
      end
  | ForallType forall_ body =>
      match typeSubstitute body sub with
      | Some body' => Some (ForallType forall_ body')
      | None => None
      end
  | Concrete tag of_ _ _ =>
      match
        match of_ with
        | Some l => map_inside (fun typeParam => typeSubstitute typeParam sub) l
        | None => Some []
        end
      with
      | Some [] => Some (Tag tag)
      | Some params => Some (Concrete tag (Some params) None None)
      | None => None
      end
  end.

(** [Array.prototype.some] over a callback that may throw: the first
    [true] or the first exception ends the scan. *)
Section Some.
Context {A : Type} (f : A -> option bool).

Fixpoint some_throwing (l : list A) : option bool :=
  match l with
  | [] => Some false
  | x :: l' =>
      match f x with
      | None => None
      | Some true => Some true
      | Some false => some_throwing l'
      end
  end.

End Some.

(** [None] stands for [throw "invalid type passed to typeVarOccurs"]. *)
Fixpoint typeVarOccurs (typeVarName : string) (type : Ty) : option bool :=
  match type with
  | TypeVar v => Some (bool_decide (v = typeVarName))
  | ForallType forall_ body =>
      if isTypeVarBoundBy typeVarName forall_ then Some false
      else typeVarOccurs typeVarName body
  | Concrete _ of_ _ _ =>
      match of_ with
      | Some l => some_throwing (fun child => typeVarOccurs typeVarName child) l
      | None => Some false
      end
  | Slot TypeNameHole => Some false
  | Slot (TypeNameBinding _) => None
  end.

(** The type variable occurs in [type], free or bound. *)
Fixpoint occursAnywhere (typeVarName : string) (type : Ty) : bool :=
  match type with
  | TypeVar v => bool_decide (v = typeVarName)
  | ForallType _ body => occursAnywhere typeVarName body
  | Concrete _ of_ _ _ =>
      match of_ with
      | Some l => existsb (occursAnywhere typeVarName) l
      | None => false
      end
  | Slot _ => false
  end.

(** A [TypeNameBinding] stands where a type is expected: as a type
    parameter, as the body of a [ForallType], or as the type itself. *)
Fixpoint bindingAsType (type : Ty) : bool :=
  match type with
  | Slot (TypeNameBinding _) => true
  | Slot TypeNameHole | TypeVar _ => false
  | ForallType _ body => bindingAsType body
  | Concrete _ of_ _ _ =>
      match of_ with
      | Some l => existsb bindingAsType l
      | None => false
      end
  end.

(* ===================================================================== *)
(** * Exceptions and mutable state *)
(* ===================================================================== *)

(** A JavaScript call either returns a value or throws; in both cases the
    mutations performed so far stay in the state. *)
Inductive Completion (A : Type) : Type :=
| Normal (a : A)
| Throw (msg : string).
Arguments Normal {A} a.
Arguments Throw {A} msg.

Definition M (S A : Type) : Type := S -> Completion A * S.

Definition ret {S A} (a : A) : M S A := fun s => (Normal a, s).
Definition throw {S A} (msg : string) : M S A := fun s => (Throw msg, s).
Definition bind {S A B} (c : M S A) (k : A -> M S B) : M S B :=
  fun s => match c s with
           | (Normal a, s') => k a s'
           | (Throw msg, s') => (Throw msg, s')
           end.
Definition gets {S A} (f : S -> A) : M S A := fun s => (Normal (f s), s).
Definition modify {S} (f : S -> S) : M S unit := fun s => (Normal tt, f s).

Declare Scope m_scope.
Delimit Scope m_scope with M.
Notation "'let!' x ':=' c 'in' k" := (bind c (fun x => k))
  (at level 10, x name, c at level 100, k at level 200) : m_scope.
Notation "c ';;' k" := (bind c (fun _ => k))
  (at level 100, k at level 200, right associativity) : m_scope.

(* ===================================================================== *)
(** * Expressions as mutable objects ([editor/trees/ast.ts]) *)
(* ===================================================================== *)

(** The module [./ast] imported by [mutate.ts] ([Expr], [hole], [isHole],
    [isSExpr], [childAtIndex], [setChildAtIndex]) is not among the sources;
    what follows in this section is modelled from the spec's data model. *)

(** Addresses of the objects of the store. *)
Definition addr := nat.

(** Modelled from the spec: the type [Expr] of [./ast].  An expression is
    either the distinguished hole value [hole] or an object of the store.
    Object identity ([===]) is equality of addresses, and [hole] is
    identical to itself. *)
Inductive Expr : Set :=
| hole
| Ref (a : addr).

(** Modelled from the spec: the objects behind [Expr].  An object is a leaf
    or a composite (S-expression) with an ordered list of child slots, each
    slot holding an expression. *)
Inductive Node : Set :=
| Atom (text : string)
| SExpr (children : list Expr).

#[global] Instance Expr_eq_dec : EqDecision Expr.
Proof. solve_decision. Defined.

#[global] Instance Node_eq_dec : EqDecision Node.
Proof. solve_decision. Defined.

(** Modelled from the spec: [isHole] of [./ast]. *)
Definition isHole (expr : Expr) : bool := bool_decide (expr = hole).

(** Modelled from the spec: [isSExpr] of [./ast], the test for a composite
    node. *)
Definition isSExpr (h : list Node) (expr : Expr) : bool :=
  match expr with
  | Ref a => match h !! a with Some (SExpr _) => true | _ => false end
  | hole => false
  end.

(** Modelled from the spec: [childAtIndex] of [./ast].  Selecting a child
    that is out of range fails ([None], reported as InvalidPath by the
    caller). *)
Definition childAtIndex (h : list Node) (expr : Expr) (index : nat) : option Expr :=
  match expr with
  | Ref a =>
      match h !! a with
      | Some (SExpr children) => children !! index
      | _ => None
      end
  | hole => None
  end.

(** Modelled from the spec: [setChildAtIndex] of [./ast], the in-place
    replacement of a single child slot, the siblings staying as they are.
    The index is what [path.at(-1)] gives: [None] is [undefined] (empty
    path), which names no slot. *)
Definition setChildAtIndex (h : list Node) (expr : Expr) (index : option nat)
    (child : Expr) : list Node :=
  match expr, index with
  | Ref a, Some i =>
      match h !! a with
      | Some (SExpr children) => <[a := SExpr (<[i := child]> children)]> h
      | _ => h
      end
  | _, _ => h
  end.

(* ===================================================================== *)
(** * The forest ([editor/trees/trees.ts]) *)
(* ===================================================================== *)

(** Placement of a tree on the canvas; carried, never looked at. *)
Record Point : Set := { x_ : Z; y_ : Z }.

(** [location] is optional because [mutate.ts] calls [newTree] with the
    root only. *)
Record Tree : Set := {
  tree_id : string;
  tree_root : Expr;
  tree_location : option Point
}.

#[global] Instance Point_eq_dec : EqDecision Point.
Proof. solve_decision. Defined.

#[global] Instance Tree_eq_dec : EqDecision Tree.
Proof. solve_decision. Defined.

(** The module state [trees_], [nextID] together with the object store the
    trees' roots point into.  [nextID] is a counter of whole numbers,
    incremented by one; its values are integers that [number] holds
    exactly. *)
Record Forest : Set := {
  heap : list Node;
  trees_ : list Tree;
  nextID : N
}.

Definition initialForest : Forest :=
  {| heap := []; trees_ := []; nextID := 0 |}.

Definition trees (F : Forest) : list Tree := trees_ F.

Definition treeByID (id : string) (F : Forest) : option Tree :=
  find (fun tree => bool_decide (tree_id tree = id)) (trees_ F).

Definition newTree (root : Expr) (location : option Point) : M Forest Tree :=
  fun F =>
    let nextID' := (nextID F + 1)%N in
    let tree := {| tree_id := pretty nextID';
                   tree_root := root;
                   tree_location := location |} in
    (Normal tree,
     {| heap := heap F; trees_ := trees_ F ++ [tree]; nextID := nextID' |}).

Definition removeTree (tree : Tree) : M Forest unit :=
  modify (fun F =>
    {| heap := heap F;
       trees_ := filter (fun tree_ => tree_id tree_ ≠ tree_id tree) (trees_ F);
       nextID := nextID F |}).

(** ** Sessions *)

(** A session is a sequence of calls of [newTree] and [removeTree]. *)
Inductive ForestOp : Set :=
| NewTree (root : Expr) (location : option Point)
| RemoveTree (tree : Tree).

(** One call; the ids handed out so far are recorded next to the state. *)
Definition stepOp (st : Forest * list string) (op : ForestOp) : Forest * list string :=
  let '(F, assigned) := st in
  match op with
  | NewTree root location =>
      match newTree root location F with
      | (Normal tree, F') => (F', assigned ++ [tree_id tree])
      | (Throw _, F') => (F', assigned)
      end
  | RemoveTree tree => ((removeTree tree F).2, assigned)
  end.

Definition runOps (ops : list ForestOp) : Forest * list string :=
  foldl stepOp (initialForest, []) ops.

(** The ids handed out when [nextID] has reached [n]: ["1"], ..., ["n"]. *)
Definition idsUpTo (n : N) : list string :=
  (fun k => pretty (N.of_nat k)) <$> seq 1 (N.to_nat n).

(** What every session preserves. *)
Definition forest_inv (st : Forest * list string) : Prop :=
  st.2 = idsUpTo (nextID st.1) /\ (tree_id <$> trees_ st.1) `sublist_of` st.2.

(* ===================================================================== *)
(** * Structural mutation ([editor/trees/mutate.ts]) *)
(* ===================================================================== *)

Local Open Scope m_scope.

Record TreeIndexPath : Set := {
  tree : Tree;
  path : list nat
}.

Definition invalid_index_path : string := "invalid index path for tree".

(** The loop of [exprForIndexPathInTree], on the store [h] and starting
    from [root]; [None] is the thrown ["invalid index path for tree"]. *)
Fixpoint walk (h : list Node) (root : Expr) (indexPath : list nat) : option Expr :=
  match indexPath with
  | [] => Some root
  | index :: indexPath' =>
      if isSExpr h root then
        match childAtIndex h root index with
        | Some child => walk h child indexPath'
        | None => None
        end
      else None
  end.

Definition exprForIndexPathInTree (t : Tree) (indexPath : list nat) : M Forest Expr :=
  fun F =>
    match walk (heap F) (tree_root t) indexPath with
    | Some expr => (Normal expr, F)
    | None => (Throw invalid_index_path, F)
    end.

(** [if (!isSExpr(e)) throw "invalid index path for tree"] *)
Definition requireSExpr (expr : Expr) : M Forest unit :=
  fun F => if isSExpr (heap F) expr then (Normal tt, F)
           else (Throw invalid_index_path, F).

Definition setChild (parent : Expr) (index : option nat) (child : Expr) : M Forest unit :=
  modify (fun F =>
    {| heap := setChildAtIndex (heap F) parent index child;
       trees_ := trees_ F;
       nextID := nextID F |}).

(** [path.slice(0, -1)] and [path.at(-1)] *)
Definition slice_0_m1 (indexPath : list nat) : list nat := removelast indexPath.
Definition at_m1 (indexPath : list nat) : option nat := last indexPath.

Definition moveExprInTree (source_ destination_ : TreeIndexPath) : M Forest unit :=
  let sourceTree := tree source_ in
  let sourceIndexPath := path source_ in
  let destinationTree := tree destination_ in
  let destinationIndexPath := path destination_ in
  if (length destinationIndexPath <? 2)%nat then
    (* Trying to replace root of a tree *)
    ret tt
  else
    let! source := exprForIndexPathInTree sourceTree sourceIndexPath in
    let! destination := exprForIndexPathInTree destinationTree destinationIndexPath in
    let! destinationParent :=
      exprForIndexPathInTree destinationTree (slice_0_m1 destinationIndexPath) in
    requireSExpr destinationParent ;;
    if bool_decide (destination = source)
       || bool_decide (destination = tree_root destinationTree)
    then ret tt
    else
      (if bool_decide (source = tree_root sourceTree) then
         removeTree sourceTree
       else
         let! sourceParent :=
           exprForIndexPathInTree sourceTree (slice_0_m1 sourceIndexPath) in
         requireSExpr sourceParent ;;
         setChild sourceParent (at_m1 sourceIndexPath) hole) ;;
      setChild destinationParent (at_m1 destinationIndexPath) source ;;
      if negb (isHole destination) then
        let! _ := newTree destination None in ret tt
      else ret tt.

(** [cloneDeep] of lodash: a recursive copy into fresh objects that keeps a
    table of the objects already copied, so that shared and cyclic
    references are copied once.  The hole value is copied to itself.  Every
    recursive descent copies an object not yet in the table, which bounds
    the depth of the recursion by the number of objects; the fuel is one
    more than the size of the store. *)
Fixpoint cloneDeep_go (fuel : nat) (expr : Expr)
    (st : gmap nat nat * list Node) : Expr * (gmap nat nat * list Node) :=
  match expr with
  | hole => (hole, st)
  | Ref a =>
      let '(seen, h) := st in
      match seen !! a with
      | Some a' => (Ref a', st)
      | None =>
          match fuel with
          | O => (expr, st)
          | S fuel' =>
              match h !! a with
              | None => (expr, st)
              | Some (Atom text) =>
                  (Ref (length h), (<[a := length h]> seen, h ++ [Atom text]))
              | Some (SExpr children) =>
                  let a' := length h in
                  let '(children', (seen', h')) :=
                    (fix go (l : list Expr) (st : gmap nat nat * list Node) :=
                       match l with
                       | [] => ([], st)
                       | child :: l' =>
                           let '(child', st1) := cloneDeep_go fuel' child st in
                           let '(l'', st2) := go l' st1 in
                           (child' :: l'', st2)
                       end) children (<[a := a']> seen, h ++ [SExpr []]) in
                  (Ref a', (seen', <[a' := SExpr children']> h'))
              end
          end
      end
  end.

Definition cloneDeep (expr : Expr) : M Forest Expr :=
  fun F =>
    let '(expr', (_, h')) :=
      cloneDeep_go (S (length (heap F))) expr (∅, heap F) in
    (Normal expr', {| heap := h'; trees_ := trees_ F; nextID := nextID F |}).

Definition copyExprInTree (source_ destination_ : TreeIndexPath) : M Forest unit :=
  let sourceTree := tree source_ in
  let sourceIndexPath := path source_ in
  let destinationTree := tree destination_ in
  let destinationIndexPath := path destination_ in
  if (length destinationIndexPath <? 2)%nat then
    (* Trying to replace root of a tree *)
    ret tt
  else
    let! source := exprForIndexPathInTree sourceTree sourceIndexPath in
    (if bool_decide (source = tree_root sourceTree) then
       removeTree sourceTree
     else
       let! sourceParent :=
         exprForIndexPathInTree sourceTree (slice_0_m1 sourceIndexPath) in
       requireSExpr sourceParent ;;
       setChild sourceParent (at_m1 sourceIndexPath) hole) ;;
    let! destination := exprForIndexPathInTree destinationTree destinationIndexPath in
    let! destinationParent :=
      exprForIndexPathInTree destinationTree (slice_0_m1 destinationIndexPath) in
    requireSExpr destinationParent ;;
    if bool_decide (destination = source)
       || bool_decide (destination = tree_root destinationTree)
    then ret tt
    else
      let! copy := cloneDeep source in
      setChild destinationParent (at_m1 destinationIndexPath) copy ;;
      if negb (isHole destination) then
        let! _ := newTree destination None in ret tt
      else ret tt.

Definition orphanExpr (location : TreeIndexPath) : M Forest unit :=
  let! expr := exprForIndexPathInTree (tree location) (path location) in
  let! exprParent :=
    exprForIndexPathInTree (tree location) (slice_0_m1 (path location)) in
  let! parentIsSExpr := gets (fun F => isSExpr (heap F) exprParent) in
  if negb parentIsSExpr then
    (* expr is already the root of a tree *)
    ret tt
  else
    setChild exprParent (at_m1 (path location)) hole ;;
    if negb (isHole expr) then
      let! _ := newTree expr None in ret tt
    else ret tt.

(** ** Well-formed forests and example forests *)

Definition refAddr (expr : Expr) : option addr :=
  match expr with Ref a => Some a | hole => None end.

Definition nodeRefs (n : Node) : list addr :=
  match n with SExpr children => omap refAddr children | Atom _ => [] end.

(** The objects held by the child slots of the store, slot by slot. *)
Definition childRefs (h : list Node) : list addr := h ≫= nodeRefs.

Definition rootRefs (ts : list Tree) : list addr :=
  omap (fun t => refAddr (tree_root t)) ts.

(** Single ownership: no object is the root of two trees, held by two
    slots, or both a root and held by a slot; and the ids of the trees are
    among those handed out so far. *)
Definition wf (F : Forest) : Prop :=
  NoDup (rootRefs (trees_ F) ++ childRefs (heap F))
  /\ Forall (fun t => tree_id t ∈ idsUpTo (nextID F)) (trees_ F).

(** The walk along [indexPath] from [root] goes through slot [i] of the
    object [a]. *)
Definition onPath (h : list Node) (root : Expr) (indexPath : list nat)
    (a : addr) (i : nat) : Prop :=
  exists p1 p2, indexPath = p1 ++ i :: p2 /\ walk h root p1 = Some (Ref a).

(** ** The claimed behaviour of [moveExprInTree] *)

(** The three cases named as no-ops. *)
Definition noop_case (F : Forest) (src dst : TreeIndexPath) : Prop :=
  length (path dst) = 0
  \/ exists s d,
       walk (heap F) (tree_root (tree src)) (path src) = Some s
       /\ walk (heap F) (tree_root (tree dst)) (path dst) = Some d
       /\ (d = s \/ d = tree_root (tree dst)).

(** "A no-op exactly in these cases; in every other case the source
    location afterwards no longer resolves or resolves to a hole, and the
    destination resolves to the original source node." *)
Definition move_claim (F : Forest) (src dst : TreeIndexPath) : Prop :=
  forall F',
    moveExprInTree src dst F = (Normal tt, F') ->
    (F' = F <-> noop_case F src dst)
    /\ (~ noop_case F src dst ->
        (treeByID (tree_id (tree src)) F' = None
         \/ walk (heap F') (tree_root (tree src)) (path src) = None
         \/ walk (heap F') (tree_root (tree src)) (path src) = Some hole)
        /\ walk (heap F') (tree_root (tree dst)) (path dst)
           = walk (heap F) (tree_root (tree src)) (path src)).

Definition tree1 : Tree :=
  {| tree_id := "1"; tree_root := Ref 0; tree_location := None |}.
Definition tree2 : Tree :=
  {| tree_id := "2"; tree_root := Ref 3; tree_location := None |}.

(** The trees [(f x)] and [(g (h _))]. *)
Definition forestA : Forest :=
  {| heap := [SExpr [Ref 1; Ref 2]; Atom "f"; Atom "x";
              SExpr [Ref 4; Ref 5]; Atom "g";
              SExpr [Ref 6; hole]; Atom "h"];
     trees_ := [tree1; tree2];
     nextID := 2 |}.

(** The tree [(g (h (f (k y))))]. *)
Definition forestB : Forest :=
  {| heap := [SExpr [Ref 1; Ref 2]; Atom "g";
              SExpr [Ref 3; Ref 4]; Atom "h";
              SExpr [Ref 5; Ref 6]; Atom "f";
              SExpr [Ref 7; Ref 8]; Atom "k"; Atom "y"];
     trees_ := [tree1];
     nextID := 1 |}.

Local Close Scope m_scope.

(** ** The states a completed mutation leaves *)

(** The forest after [setChildAtIndex] on the slot [index] of the object
    [parent]. *)
Definition setSlot (parent : addr) (index : nat) (child : Expr) (F : Forest) : Forest :=
  (setChild (Ref parent) (Some index) child F).2.

(** The forest after [if (!isHole(expr)) newTree(expr)]. *)
Definition promote (expr : Expr) (F : Forest) : Forest :=
  if isHole expr then F else (newTree expr None F).2.

(* ===================================================================== *)
(** * The evaluator ([evaluator/evaluate.ts]) *)
(* ===================================================================== *)

Module Evaluator.

(** ** Expressions and values *)

(** [expr/expr.ts] and [evaluator/value.ts] are not among the sources; the
    types of this section are modelled from the spec's data model and from
    the use [evaluate.ts] makes of them. *)

(** Modelled from the spec: literal data is a number, boolean, string,
    symbol or list (ordered heads and an optional improper tail).  Numbers
    are carried, never computed with, by the evaluator itself. *)
Inductive Datum : Type :=
| DNumber (value : Z)
| DBool (value : bool)
| DString (value : string)
| DSymbol (value : string)
| DList (heads : list Datum) (tail : option Datum).

(** Modelled from the spec: a bindable identifier, optionally annotated
    with a type. *)
Record NameBinding : Type := {
  id : string;
  type : option Ty
}.

(** Modelled from the spec: the type [Expr] of [expr/expr.ts], with the
    kinds of the [switch] in [#eval_].  [Lit] stands for the literal kinds
    [number], [bool], [string], [symbol] and [list]; the hole, which
    [#eval_] tells apart from them by [isHole], is a kind of its own.  In a
    [let], a [letrec] and a [lambda] the code reads the binders as
    [NameBinding]s; the name of a [define] is an expression, which the code
    tests. *)
Inductive Expr : Type :=
| Lit (datum : Datum)
| Hole
| Var (id : string)
| Call (called : Expr) (args : list Expr)
| Define (name : Expr) (value : Expr)
| Let (bindings : list (NameBinding * Expr)) (body : Expr)
| Letrec (bindings : list (NameBinding * Expr)) (body : Expr)
| Lambda (params : list NameBinding) (body : Expr)
| Sequence (exprs : list Expr)
| If (if_ then_ else_ : Expr)
| Cond
| NameBindingExpr (binding : NameBinding)
| TypeExpr (type : Ty).

(** ** Environments ([editor/library/environments.ts]) *)

(** A [Cell] is a mutable object shared by reference; it is represented by
    its address in the store of cells of the evaluator state.  The optional
    [attributes] of a binding play no role in evaluation. *)
Record Binding : Type := {
  name : string;
  cell : nat
}.

(** [Environment = Record<string, Binding<Value>>]: an object.  [own] holds
    its own properties.  Its prototype is [Object.prototype], unless an
    assignment to the key [__proto__] has made a Binding its prototype:
    then [proto] holds that Binding. *)
Record Environment : Type := {
  own : gmap string Binding;
  proto : option Binding
}.

(** The object [{}]. *)
#[global] Instance Environment_empty : Empty Environment :=
  {| own := ∅; proto := None |}.

(** The object literal [{ [name]: binding }]: a computed key is an own
    property, whatever the name. *)
#[global] Instance Environment_singleton : SingletonM string Binding Environment :=
  fun name binding => {| own := {[ name := binding ]}; proto := None |}.

(** [env[name]], as far as [env[name]?.cell] can tell: the own property of
    that name; without one, under the name [__proto__] the accessor
    inherited from [Object.prototype] gives the prototype, which has a
    [cell] when it is a Binding.  Every other value that can be inherited
    has no [cell]: the functions of [Object.prototype], and the [name],
    the [cell] and the [attributes] of a Binding that is the prototype. *)
#[global] Instance Environment_lookup : Lookup string Binding Environment :=
  fun name env =>
    match own env !! name with
    | Some binding => Some binding
    | None => if bool_decide (name = "__proto__") then proto env else None
    end.

(** [keyBy(bindings, (binding) => binding.name)]: a later binding of the
    same name replaces an earlier one.  lodash defines every key as an own
    property, also [__proto__]. *)
Definition makeEnv (bindings : list Binding) : Environment :=
  {| own := foldl (fun env binding => <[name binding := binding]> env) ∅ bindings;
     proto := None |}.

(** [Object.values(env)]: the values of the own properties. *)
Definition Object_values (env : Environment) : list Binding :=
  snd <$> map_to_list (own env).

(** What [Object.assign] does with one source: every own property of the
    source is assigned to the target, [target[key] = source[key]].  The
    assignment makes an own property of the target, except under the key
    [__proto__], where it runs the setter inherited from [Object.prototype]
    and makes the Binding assigned the prototype of the target.  What the
    source inherits is not copied.  An [undefined] source is skipped. *)
Definition assign (target : Environment) (source : option Environment) : Environment :=
  match source with
  | None => target
  | Some source =>
      {| own := delete "__proto__" (own source) ∪ own target;
         proto := match own source !! "__proto__" with
                  | Some binding => Some binding
                  | None => proto target
                  end |}
  end.

(** [Object.assign({}, ...environments)]: the keys of later environments
    take precedence. *)
Definition mergeEnvs (environments : list (option Environment)) : Environment :=
  foldl assign ∅ environments.

(** ** Values *)

(** Modelled from the spec: an entry of a function value's signature. *)
Record Param : Type := {
  param_name : string;
  param_type : option string;
  variadic : bool
}.

Section WithNative.

(** The native operations held by builtin function values. *)
Context {native : Type}.

(** Modelled from the spec: the body of a function value is an expression
    (closure) or a native operation (builtin). *)
Inductive FnBody : Type :=
| Interpreted (body : Expr)
| Builtin (op : native).

(** Modelled from the spec: the type [Value] of [evaluator/value.ts]; a
    function value carries its signature, its body and, for a closure, the
    environment it captured. *)
Inductive Value : Type :=
| VNumber (value : Z)
| VBool (value : bool)
| VString (value : string)
| VSymbol (value : string)
| VList (heads : list Value) (tail : option Value)
| VFn (signature : list Param) (body : FnBody) (env : option Environment).

(** A literal expression is its own value. *)
Fixpoint valueOfDatum (d : Datum) : Value :=
  match d with
  | DNumber n => VNumber n
  | DBool b => VBool b
  | DString s => VString s
  | DSymbol s => VSymbol s
  | DList heads tail =>
      VList (map valueOfDatum heads)
            (match tail with Some t => Some (valueOfDatum t) | None => None end)
  end.

(** Modelled from the spec: [valueAsBool] of [evaluator/value.ts]; only an
    explicit boolean false is falsy. *)
Definition valueAsBool (v : Value) : bool :=
  match v with VBool false => false | _ => true end.

(** ** Global definitions *)

(** Modelled from the spec: the class [Defines] of [evaluator/defines.ts] is
    not among the sources.  It holds, per name, a lazy producer and the Cell
    cached for it.  The only producers the evaluator registers are the
    closures [() => ({ value: this.#eval(expr.value) })] of the [define]
    case; a producer is represented by the expression it evaluates. *)
Record Defines : Type := {
  thunks : gmap string Expr;
  cached : gmap string nat
}.

(** ** Evaluator state *)

(** The fields of the [Evaluator] object and the store of Cell objects.
    The constructor leaves [env] unset. *)
Record State : Type := {
  baseEnv : Environment;
  env : option Environment;
  defines : Defines;
  cells : list (option Value)
}.

Inductive Outcome (A : Type) : Type :=
| Done (c : Completion A) (st : State)
| OutOfFuel.
Arguments Done {A} c st.
Arguments OutOfFuel {A}.

Definition E (A : Type) : Type := State -> Outcome A.

Definition retE {A} (a : A) : E A := fun st => Done (Normal a) st.
Definition throwE {A} (msg : string) : E A := fun st => Done (Throw msg) st.
Definition bindE {A B} (c : E A) (k : A -> E B) : E B :=
  fun st => match c st with
            | Done (Normal a) st' => k a st'
            | Done (Throw msg) st' => Done (Throw msg) st'
            | OutOfFuel => OutOfFuel
            end.
Definition getsE {A} (f : State -> A) : E A := fun st => Done (Normal (f st)) st.
Definition modifyE (f : State -> State) : E unit := fun st => Done (Normal tt) (f st).

Declare Scope e_scope.
Delimit Scope e_scope with E.
Notation "'let!' x ':=' c 'in' k" := (bindE c (fun x => k))
  (at level 10, x name, c at level 100, k at level 200) : e_scope.
Notation "c ';;' k" := (bindE c (fun _ => k))
  (at level 100, k at level 200, right associativity) : e_scope.
Local Open Scope e_scope.

(** [list.map(f)] and [list.forEach(f)] for a callback with effects. *)
Fixpoint mapE {A B} (f : A -> E B) (l : list A) : E (list B) :=
  match l with
  | [] => retE []
  | a :: l' => let! b := f a in let! bs := mapE f l' in retE (b :: bs)
  end.

(** Allocation of a new Cell object [{ value }] or [{}]. *)
Definition newCell (value : option Value) : E nat :=
  fun st =>
    Done (Normal (length (cells st)))
         {| baseEnv := baseEnv st; env := env st; defines := defines st;
            cells := cells st ++ [value] |}.

(** [cell.value = v] *)
Definition setCellValue (c : nat) (v : Value) : E unit :=
  modifyE (fun st =>
    {| baseEnv := baseEnv st; env := env st; defines := defines st;
       cells := <[c := Some v]> (cells st) |}).

(** [cell?.value] for a cell that may be [undefined] *)
Definition cellValue (c : option nat) : E (option Value) :=
  getsE (fun st => match c with
                   | Some c => default None (cells st !! c)
                   | None => None
                   end).

(** [this.env = e] *)
Definition withEnv (st : State) (e : option Environment) : State :=
  {| baseEnv := baseEnv st; env := e; defines := defines st;
     cells := cells st |}.

Definition setEnv (e : option Environment) : E unit :=
  modifyE (fun st => withEnv st e).

Definition setDefines (d : Defines) : E unit :=
  modifyE (fun st =>
    {| baseEnv := baseEnv st; env := env st; defines := d;
       cells := cells st |}).

(** Modelled from the spec: [Defines.add(name, thunk)]; the last
    registration for a name wins. *)
Definition Defines_add (name : string) (thunk : Expr) : E unit :=
  let! d := getsE defines in
  setDefines {| thunks := <[name := thunk]> (thunks d); cached := cached d |}.

(** Modelled from the spec: the caching of a Cell by [Defines]. *)
Definition setCached (name : string) (c : nat) : E unit :=
  let! d := getsE defines in
  setDefines {| thunks := thunks d; cached := <[name := c]> (cached d) |}.

(** [checkCallAgainstTypeSignature] of [evaluator/dynamic-type.ts] is not
    among the sources; it and its parts are modelled from the spec. *)

(** Modelled from the spec: the tag of a value, as signatures name it. *)
Definition valueTag (v : Value) : string :=
  match v with
  | VNumber _ => "Number"
  | VBool _ => "Boolean"
  | VString _ => "String"
  | VSymbol _ => "Symbol"
  | VList _ _ => "List"
  | VFn _ _ _ => "Function"
  end.

(** Modelled from the spec: the last parameter of the signature is
    variadic. *)
Definition lastVariadic (signature : list Param) : bool :=
  match last signature with Some p => variadic p | None => false end.

(** Modelled from the spec: the number of fixed parameters. *)
Definition fixedCount (signature : list Param) : nat :=
  if lastVariadic signature then length signature - 1 else length signature.

(** Modelled from the spec: the count of arguments must equal the count of
    parameters, unless the last parameter is variadic, when it must be at
    least the count of the fixed ones. *)
Definition arityOk (args : list Value) (signature : list Param) : bool :=
  if lastVariadic signature then (fixedCount signature <=? length args)%nat
  else (length args =? length signature)%nat.

(** Modelled from the spec: the parameter an argument belongs to, the
    variadic parameter standing for all the trailing arguments. *)
Definition paramFor (signature : list Param) (i : nat) : option Param :=
  match signature !! i with
  | Some p => Some p
  | None => if lastVariadic signature then last signature else None
  end.

(** Modelled from the spec: the tag of an argument is checked against the
    type its parameter declares, if it declares one. *)
Definition tagOk (signature : list Param) (i : nat) (arg : Value) : bool :=
  match paramFor signature i with
  | Some p =>
      match param_type p with
      | Some t => bool_decide (valueTag arg = t)
      | None => true
      end
  | None => true
  end.

(** Modelled from the spec: [checkCallAgainstTypeSignature(args,
    signature)] fails with ArityMismatch or TypeMismatch, or returns. *)
Definition checkCallAgainstTypeSignature (args : list Value)
    (signature : list Param) : E unit :=
  if negb (arityOk args signature) then throwE "ArityMismatch"
  else if negb (forallb (fun '(i, arg) => tagOk signature i arg)
                        (imap (fun i arg => (i, arg)) args))
  then throwE "TypeMismatch"
  else retE tt.

(** [for (...) callEnv = mergeEnvs(callEnv, ...)]: a left fold with effects. *)
Fixpoint foldlE {A B} (f : A -> B -> E A) (a : A) (l : list B) : E A :=
  match l with
  | [] => retE a
  | b :: l' => let! a' := f a b in foldlE f a' l'
  end.

(** What a native operation does with its raw arguments and the evaluator;
    the evaluator is handed over as its method [call]. *)
Context (runNative : native -> (Value -> list Value -> E Value) -> list Value -> E Value).

Section Methods.

(** The methods call each other recursively; [eval_rec] and [call_rec] stand
    for the recursive invocations of [#eval] and [call]. *)
Context (eval_rec : Expr -> option Environment -> option Environment -> E Value).
Context (call_rec : Value -> list Value -> E Value).

(** Modelled from the spec: [Defines.get(name)] returns the cached Cell if
    there is one; otherwise it runs the producer registered for the name and
    caches the Cell it yields.  While the producer runs, the name is cached
    with a Cell that is not populated yet, so that a producer looking up its
    own name meets an empty Cell instead of running again. *)
Definition Defines_get (name : string) : E (option nat) :=
  let! d := getsE defines in
  match cached d !! name with
  | Some c => retE (Some c)
  | None =>
      match thunks d !! name with
      | None => retE None
      | Some value =>
          let! pending := newCell None in
          setCached name pending ;;
          let! v := eval_rec value None None in
          let! c := newCell (Some v) in
          setCached name c ;;
          retE (Some c)
      end
  end.

(** [#get(name)]: [this.env[name]?.cell ?? this.defines.get(name)] *)
Definition get (name : string) : E (option nat) :=
  let! e := getsE env in
  match e with
  | None => throwE "TypeError"
  | Some e =>
      match e !! name with
      | Some binding => retE (Some (cell binding))
      | None => Defines_get name
      end
  end.

(** [call(fn, args)] *)
Definition call_body (fn : Value) (args : list Value) : E Value :=
  match fn with
  | VFn signature body fnEnv =>
      checkCallAgainstTypeSignature args signature ;;
      let! callEnv :=
        foldlE (fun callEnv '(p, value) =>
                  let! c := newCell (Some value) in
                  retE (mergeEnvs
                          [Some callEnv;
                           Some {[ param_name p :=
                                     {| name := param_name p; cell := c |} ]}]))
               (default ∅ fnEnv) (zip signature args) in
      match body with
      | Builtin op => runNative op call_rec args
      | Interpreted body => eval_rec body (Some callEnv) None
      end
  | _ => throwE "TypeError"
  end.

(** [#eval_(expr)] *)
Definition eval_ (expr : Expr) : E Value :=
  match expr with
  | Lit datum => retE (valueOfDatum datum)
  | Hole => throwE "evaluating hole as expression"
  | Var id =>
      let! c := get id in
      let! v := cellValue c in
      match v with
      | None => throwE ("unbound variable: " +:+ id)
      | Some v => retE v
      end
  | Call called args =>
      let! calledValue := eval_rec called None None in
      match calledValue with
      | VFn _ _ _ =>
          let! argValues := mapE (fun arg => eval_rec arg None None) args in
          call_body calledValue argValues
      | _ => throwE "cannot call non-function"
      end
  | Define name value =>
      match name with
      | NameBindingExpr binding =>
          Defines_add (id binding) value ;;
          retE (VList [] None)
      | _ => throwE "'define' must be given a name"
      end
  | Let bindings body =>
      let! valueBindings :=
        mapE (fun '(name, value) =>
                let! v := eval_rec value None None in
                let! c := newCell (Some v) in
                retE {| name := id name; cell := c |}) bindings in
      eval_rec body None (Some (makeEnv valueBindings))
  | Letrec bindings body =>
      let! emptyBindings :=
        mapE (fun '(name, _) =>
                let! c := newCell None in
                retE {| name := id name; cell := c |}) bindings in
      let valueBindings := makeEnv emptyBindings in
      mapE (fun '(name, value) =>
              let! v := eval_rec value None None in
              match valueBindings !! id name with
              | Some binding => setCellValue (cell binding) v
              | None => throwE "TypeError"
              end) bindings ;;
      eval_rec body None (Some (makeEnv (Object_values valueBindings)))
  | Lambda params body =>
      let! e := getsE env in
      retE (VFn (map (fun param =>
                        {| param_name := id param;
                           param_type := None;
                           variadic := false |}) params)
                (Interpreted body) e)
  | Sequence exprs =>
      let! results := mapE (fun expr => eval_rec expr None None) exprs in
      retE (default (VList [] None) (last results))
  | If if_ then_ else_ =>
      let! condition := eval_rec if_ None None in
      eval_rec (if valueAsBool condition then then_ else else_) None None
  | Cond | NameBindingExpr _ | TypeExpr _ => throwE "TODO"
  end.

(** [#eval(expr, { env, extendEnv })] *)
Definition eval_private_body (expr : Expr)
    (env_ extendEnv : option Environment) : E Value :=
  let! prevEnv := getsE env in
  match env_ with
  | Some e => let! base := getsE baseEnv in setEnv (Some (mergeEnvs [Some base; Some e]))
  | None => retE tt
  end ;;
  match extendEnv with
  | Some e => let! cur := getsE env in setEnv (Some (mergeEnvs [cur; Some e]))
  | None => retE tt
  end ;;
  let! result := eval_ expr in
  setEnv prevEnv ;;
  retE result.

End Methods.

(** The recursion is bounded by [fuel]: every invocation of [#eval] and every
    [evaluator.call] made by a native operation uses one unit. *)
Fixpoint eval_private (fuel : nat) (expr : Expr)
    (env_ extendEnv : option Environment) : E Value :=
  match fuel with
  | O => fun _ => OutOfFuel
  | S fuel' =>
      eval_private_body (eval_private fuel') (call fuel') expr env_ extendEnv
  end
with call (fuel : nat) (fn : Value) (args : list Value) : E Value :=
  match fuel with
  | O => fun _ => OutOfFuel
  | S fuel' => call_body (eval_private fuel') (call fuel') fn args
  end.

(** [eval(expr, env = {})] *)
Definition eval (fuel : nat) (expr : Expr) (env_ : option Environment) : E Value :=
  eval_private fuel expr (Some (default ∅ env_)) None.

(** [new Evaluator({ baseEnv, defines })] with an empty store of cells. *)
Definition newEvaluator (baseEnv_ : Environment) (defines_ : Defines) : State :=
  {| baseEnv := baseEnv_; env := None; defines := defines_; cells := [] |}.

(** ** The call environment, and the claimed treatment of variadic parameters *)

(** The environment built by the loop of [call]: as far as there are
    arguments, the binding of each parameter, to the cells [c], [c + 1],
    ..., is merged into the environment in order. *)
Fixpoint bindParams (callEnv : Environment) (c : nat) (signature : list Param)
    (args : list Value) : Environment :=
  match signature, args with
  | p :: signature', _ :: args' =>
      bindParams (mergeEnvs
                    [Some callEnv;
                     Some {[ param_name p := {| name := param_name p; cell := c |} ]}])
                 (S c) signature' args'
  | _, _ => callEnv
  end.

(** "The extra arguments beyond the fixed parameters are available to the
    variadic parameter as a trailing collection in the call environment":
    a closure whose body reads its variadic parameter returns the list of
    the extra arguments. *)
Definition variadic_claim (fuel : nat) (signature : list Param)
    (fnEnv : option Environment) (args : list Value) (st : State) : Prop :=
  forall p,
    last signature = Some p -> variadic p = true ->
    fixedCount signature <= length args ->
    exists st',
      call fuel (VFn signature (Interpreted (Var (param_name p))) fnEnv) args st
      = Done (Normal (VList (drop (fixedCount signature) args) None)) st'.

End WithNative.

(** ** Example programs *)

Definition noDefines : Defines := {| thunks := ∅; cached := ∅ |}.

(** An evaluator without builtins. *)
Definition noNative : Empty_set ->
    (@Value Empty_set -> list (@Value Empty_set) -> @E Empty_set (@Value Empty_set)) ->
    list (@Value Empty_set) -> @E Empty_set (@Value Empty_set) :=
  fun op _ _ => match op with end.

Definition binding (id_ : string) : NameBinding := {| id := id_; type := None |}.

(** [(letrec ((f (lambda () g)) (g 1)) (f))] *)
Definition letrecThroughClosure : Expr :=
  Letrec [(binding "f", Lambda [] (Var "g")); (binding "g", Lit (DNumber 1))]
         (Call (Var "f") []).

(** [(define g 7)] followed by [(letrec ((f g) (g 1)) f)] *)
Definition letrecOverGlobal : Expr :=
  Sequence [Define (NameBindingExpr (binding "g")) (Lit (DNumber 7));
            Letrec [(binding "f", Var "g"); (binding "g", Lit (DNumber 1))]
                   (Var "f")].

Definition restParam : Param :=
  {| param_name := "rest"; param_type := None; variadic := true |}.

Arguments FnBody : clear implicits.
Arguments Value : clear implicits.
Arguments State : clear implicits.
Arguments Outcome : clear implicits.
Arguments E : clear implicits.
Arguments Done {native A} c st.
Arguments OutOfFuel {native A}.

(** ** Builtins ([editor/library/environments.ts]) *)

Section ChainCompare.
Context {Item : Type}.

(** The loop of [chainCompare] from the item [prev] on, entered with
    [satisfied] true: it ends at the first comparison that does not hold,
    with [satisfied] false. *)
Fixpoint chainCompare_loop (compare : Item -> Item -> bool) (prev : Item)
    (items : list Item) : bool :=
  match items with
  | [] => true
  | cur :: items' =>
      if compare prev cur then chainCompare_loop compare cur items'
      else false
  end.

Definition chainCompare (items : list Item) (compare : Item -> Item -> bool) : bool :=
  match items with
  | [] => true
  | prev :: items' => chainCompare_loop compare prev items'
  end.

End ChainCompare.

Section ListBuiltins.
Context {native : Type}.

(** The bodies of the list builtins, on their destructured arguments.  An
    argument or result that may be [undefined] is an [option]; reading a
    property of [undefined] is a TypeError. *)

(** [cons]: [{ kind: "list", heads: [head], tail }] *)
Definition builtin_cons (head tail : Value native) : Value native :=
  VList [head] (Some tail).

(** [first]: [pair.heads[0]], without a check of the length. *)
Definition builtin_first (pair : Value native) : Completion (option (Value native)) :=
  match pair with
  | VList heads _ => Normal (heads !! 0)
  | _ => Throw "TypeError"
  end.

(** [rest] *)
Definition builtin_rest (pair : Value native) : Completion (Value native) :=
  match pair with
  | VList heads tail =>
      if (1 <? length heads)%nat then Normal (VList (drop 1 heads) tail)
      else Normal (default (VList [] None) tail)
  | _ => Throw "TypeError"
  end.

(** [null?]: [obj?.kind === "list" && obj.heads.length === 0] *)
Definition builtin_null_p (obj : option (Value native)) : Value native :=
  VBool match obj with
        | Some (VList heads _) => (length heads =? 0)%nat
        | _ => false
        end.

(** [null] of [ExtensionsEnvironment] *)
Definition builtin_null : Value native := VList [] None.

(** [rest] applied [k] times, and [first] after that, as in
    [(first (rest (rest pair)))]. *)
Fixpoint builtin_rest_iter (k : nat) (pair : Value native) : Completion (Value native) :=
  match k with
  | O => Normal pair
  | S k' =>
      match builtin_rest pair with
      | Normal pair' => builtin_rest_iter k' pair'
      | Throw msg => Throw msg
      end
  end.

Definition first_after_rests (k : nat) (pair : Value native)
    : Completion (option (Value native)) :=
  match builtin_rest_iter k pair with
  | Normal pair' => builtin_first pair'
  | Throw msg => Throw msg
  end.

(** The list [(cons x1 (cons x2 ... (null)))]. *)
Definition cons_list (elements : list (Value native)) : Value native :=
  foldr builtin_cons builtin_null elements.

End ListBuiltins.

End Evaluator.

(* ===================================================================== *)
(** * Properties of type substitution *)
(* ===================================================================== *)

(** Induction on types, with the induction hypothesis for every type
    parameter of a concrete type. *)
Section Ty_induction.
Context (P : Ty -> Prop).
Context (HConcrete : forall tag of_ mn mx,
            (forall l, of_ = Some l -> Forall P l) -> P (Concrete tag of_ mn mx)).
Context (HForall : forall slots body, P body -> P (ForallType slots body)).
Context (HVar : forall v, P (TypeVar v)).
Context (HSlot : forall s, P (Slot s)).

Lemma Ty_nested_ind (t : Ty) : P t.
Proof.
  revert t. fix IH 1. intros [tag of_ mn mx|slots body|v|s].
  - apply HConcrete. destruct of_ as [l0|]; intros l Hl; [|discriminate].
    injection Hl as <-.
    induction l0 as [|x l0 IHl]; constructor; [apply IH | apply IHl].
  - apply HForall, IH.
  - apply HVar.
  - apply HSlot.
Qed.

End Ty_induction.

Lemma isTypeVarBoundBy_false (typeVarName : string) (slots : list TypeVarSlot) :
  isTypeVarBoundBy typeVarName slots = false.
Proof. induction slots as [|slot slots IH]; [reflexivity | exact IH]. Qed.

(** C2 fails on the code: [typeSubstitute] goes into the body of a
    [ForallType] with the same mapping and never looks at the binders, so
    substituting [{a: Number}] into [Forall([a], TypeVar("a"))] replaces the
    bound occurrence and returns [Forall([a], Number)], whatever the slots
    are; the sibling [typeVarOccurs] has a branch for the shadowed name.
    The free [TypeVar("a")] becomes [Number], as the claim says. *)
Theorem typeSubstitute_replaces_bound_occurrence :
  typeSubstitute (ForallType [TypeNameBinding "a"] (TypeVar "a")) {[ "a" := Number ]}
  = Some (ForallType [TypeNameBinding "a"] Number)
  /\ typeSubstitute (ForallType [TypeNameBinding "a"] (TypeVar "a")) {[ "a" := Number ]}
     <> Some (ForallType [TypeNameBinding "a"] (TypeVar "a"))
  /\ (forall slots,
        typeSubstitute (ForallType slots (TypeVar "a")) {[ "a" := Number ]}
        = Some (ForallType slots Number))
  /\ typeSubstitute (TypeVar "a") {[ "a" := Number ]} = Some Number.
Proof.
  split; [reflexivity|]. split; [discriminate|]. split; reflexivity.
Qed.

(** C3 fails on the code: the slots of a [ForallType] are [TypeVarSlot]s,
    which [isTypeVarBoundBy] tests with [isTypeVar]; no name is ever found
    bound, and [typeVarOccurs("a", Forall([a], TypeVar("a")))] is [true]. *)
Theorem typeVarOccurs_ignores_binder :
  typeVarOccurs "a" (ForallType [TypeNameBinding "a"] (TypeVar "a")) = Some true
  /\ forall typeVarName slots body,
       typeVarOccurs typeVarName (ForallType slots body)
       = typeVarOccurs typeVarName body.
Proof.
  split; [reflexivity|].
  intros. simpl. rewrite isTypeVarBoundBy_false. reflexivity.
Qed.

(* ===================================================================== *)
(** * Properties of the forest *)
(* ===================================================================== *)

Lemma idsUpTo_succ (n : N) : idsUpTo (n + 1) = idsUpTo n ++ [pretty (n + 1)%N].
Proof.
  unfold idsUpTo.
  replace (N.to_nat (n + 1)) with (S (N.to_nat n)) by lia.
  rewrite seq_S, fmap_app. simpl. do 3 f_equal. lia.
Qed.

Lemma idsUpTo_NoDup (n : N) : NoDup (idsUpTo n).
Proof.
  unfold idsUpTo. apply NoDup_fmap_2_strong; [|apply NoDup_seq].
  intros a b _ _ H. apply (inj pretty) in H. lia.
Qed.

Lemma stepOp_inv (st : Forest * list string) (op : ForestOp) :
  forest_inv st -> forest_inv (stepOp st op).
Proof.
  destruct st as [F assigned]. intros [Hids Hsub]. simpl in *.
  destruct op as [root location|t]; simpl.
  - split; simpl.
    + rewrite idsUpTo_succ, Hids. reflexivity.
    + rewrite fmap_app. simpl. apply sublist_app; [exact Hsub | reflexivity].
  - split; simpl; [exact Hids|].
    etransitivity; [|exact Hsub].
    apply fmap_sublist, sublist_filter.
Qed.

Lemma runOps_inv (ops : list ForestOp) : forest_inv (runOps ops).
Proof.
  unfold runOps. induction ops as [|op ops IH] using rev_ind.
  - split; simpl; [reflexivity | constructor].
  - rewrite foldl_snoc. apply stepOp_inv, IH.
Qed.

(** C9: in every session of [newTree] and [removeTree] calls started from
    the empty forest, the ids handed out are pairwise distinct (so none is
    handed out again after its tree was removed), and the trees in the
    forest carry pairwise distinct ids, each one of those handed out. *)
Theorem forest_ids_unique (ops : list ForestOp) :
  NoDup (runOps ops).2
  /\ NoDup (tree_id <$> trees_ (runOps ops).1)
  /\ (forall t, t ∈ trees_ (runOps ops).1 -> tree_id t ∈ (runOps ops).2).
Proof.
  destruct (runOps_inv ops) as [Hids Hsub].
  assert (NoDup (runOps ops).2) as Hnd by (rewrite Hids; apply idsUpTo_NoDup).
  split; [exact Hnd|]. split.
  - eapply sublist_NoDup; eauto.
  - intros t Ht. eapply elem_of_sublist; [|exact Hsub].
    apply list_elem_of_fmap. eauto.
Qed.

(* ===================================================================== *)
(** * Properties of the structural mutations *)
(* ===================================================================== *)

(** ** Walking index paths *)

Lemma childAtIndex_Some (h : list Node) (e : Expr) (i : nat) (c : Expr) :
  childAtIndex h e i = Some c <->
  exists a cs, e = Ref a /\ h !! a = Some (SExpr cs) /\ cs !! i = Some c.
Proof.
  unfold childAtIndex. split.
  - destruct e as [|a]; [discriminate|].
    destruct (h !! a) as [[t|cs]|] eqn:Ha; try discriminate. eauto.
  - intros (a & cs & -> & -> & Hc). exact Hc.
Qed.

Lemma childAtIndex_isSExpr (h : list Node) (e : Expr) (i : nat) (c : Expr) :
  childAtIndex h e i = Some c -> isSExpr h e = true.
Proof.
  intros (a & cs & -> & Ha & _)%childAtIndex_Some. simpl. rewrite Ha. reflexivity.
Qed.

Lemma walk_cons (h : list Node) (r : Expr) (i : nat) (p : list nat) :
  walk h r (i :: p) = childAtIndex h r i ≫= fun c => walk h c p.
Proof.
  simpl. destruct (childAtIndex h r i) as [c|] eqn:Hc; simpl.
  - rewrite (childAtIndex_isSExpr _ _ _ _ Hc). reflexivity.
  - destruct (isSExpr h r); reflexivity.
Qed.

Lemma walk_app (h : list Node) (r : Expr) (p q : list nat) :
  walk h r (p ++ q) = walk h r p ≫= fun e => walk h e q.
Proof.
  revert r. induction p as [|i p IH]; intros r; [reflexivity|].
  rewrite <- app_comm_cons, !walk_cons.
  destruct (childAtIndex h r i) as [c|]; simpl; [apply IH | reflexivity].
Qed.

Lemma walk_snoc (h : list Node) (r : Expr) (p : list nat) (i : nat) :
  walk h r (p ++ [i]) = walk h r p ≫= fun e => childAtIndex h e i.
Proof.
  rewrite walk_app. destruct (walk h r p) as [e|]; [|reflexivity].
  change (walk h e [i] = childAtIndex h e i).
  rewrite walk_cons. destruct (childAtIndex h e i); reflexivity.
Qed.

Lemma walk_snoc_Some (h : list Node) (r : Expr) (p : list nat) (i : nat) (c : Expr) :
  walk h r (p ++ [i]) = Some c <->
  exists a cs, walk h r p = Some (Ref a) /\ h !! a = Some (SExpr cs)
               /\ cs !! i = Some c.
Proof.
  rewrite walk_snoc. split.
  - destruct (walk h r p) as [e|]; simpl; [|discriminate].
    intros (a & cs & -> & Ha & Hc)%childAtIndex_Some. eauto.
  - intros (a & cs & -> & Ha & Hc). simpl. rewrite Ha. exact Hc.
Qed.

Lemma nonempty_snoc {A} (l : list A) :
  l <> [] -> exists l' x, l = l' ++ [x].
Proof.
  destruct l as [|y l] using rev_ind; [congruence | eauto].
Qed.

(** ** Single ownership *)

Lemma omap_refAddr_lookup (cs : list Expr) (i : nat) (a : addr) :
  cs !! i = Some (Ref a) -> a ∈ omap refAddr cs.
Proof.
  intros H. apply list_elem_of_omap. exists (Ref a). split; [|reflexivity].
  apply list_elem_of_lookup. eauto.
Qed.

Lemma omap_refAddr_NoDup (cs : list Expr) (i j : nat) (a : addr) :
  NoDup (omap refAddr cs) ->
  cs !! i = Some (Ref a) -> cs !! j = Some (Ref a) -> i = j.
Proof.
  revert i j. induction cs as [|c cs IH]; intros i j Hnd Hi Hj; [discriminate|].
  destruct i as [|i], j as [|j]; simpl in *.
  - reflexivity.
  - injection Hi as ->. simpl in Hnd. apply NoDup_cons in Hnd as [Hnotin _].
    exfalso. apply Hnotin. eapply omap_refAddr_lookup; eauto.
  - injection Hj as ->. simpl in Hnd. apply NoDup_cons in Hnd as [Hnotin _].
    exfalso. apply Hnotin. eapply omap_refAddr_lookup; eauto.
  - f_equal. apply IH; auto.
    destruct (refAddr c); simpl in Hnd; [apply NoDup_cons in Hnd; tauto | exact Hnd].
Qed.

Lemma childRefs_lookup (h : list Node) (p : addr) (cs : list Expr) (i : nat) (a : addr) :
  h !! p = Some (SExpr cs) -> cs !! i = Some (Ref a) -> a ∈ childRefs h.
Proof.
  intros Hp Hi. unfold childRefs. apply list_elem_of_bind.
  exists (SExpr cs). split; [eapply omap_refAddr_lookup; eauto|].
  apply list_elem_of_lookup. eauto.
Qed.

Lemma childRefs_NoDup (h : list Node) (p q : addr) (cs ds : list Expr)
    (i j : nat) (a : addr) :
  NoDup (childRefs h) ->
  h !! p = Some (SExpr cs) -> cs !! i = Some (Ref a) ->
  h !! q = Some (SExpr ds) -> ds !! j = Some (Ref a) ->
  p = q /\ i = j.
Proof.
  unfold childRefs. revert p q.
  induction h as [|n h IH]; intros p q Hnd Hp Hi Hq Hj; [discriminate|].
  simpl in Hnd. apply NoDup_app in Hnd as (Hn & Hdisj & Hh).
  destruct p as [|p], q as [|q]; simpl in *.
  - injection Hp as ->. injection Hq as ->. split; [reflexivity|].
    eapply omap_refAddr_NoDup; eauto.
  - injection Hp as ->. exfalso. eapply Hdisj.
    + eapply omap_refAddr_lookup; eauto.
    + eapply (childRefs_lookup h q); eauto.
  - injection Hq as ->. exfalso. eapply Hdisj.
    + eapply omap_refAddr_lookup; eauto.
    + eapply (childRefs_lookup h p); eauto.
  - destruct (IH p q Hh Hp Hi Hq Hj) as [-> ->]. auto.
Qed.

Lemma rootRefs_elem (ts : list Tree) (t : Tree) (a : addr) :
  t ∈ ts -> tree_root t = Ref a -> a ∈ rootRefs ts.
Proof.
  intros Ht Hr. apply list_elem_of_omap. exists t. rewrite Hr. auto.
Qed.

(** In a well-formed forest the root of a tree is held by no slot. *)
Lemma wf_root_not_child (F : Forest) (t : Tree) (a : addr) :
  wf F -> t ∈ trees_ F -> tree_root t = Ref a -> a ∉ childRefs (heap F).
Proof.
  intros [Hnd _] Ht Hr. apply NoDup_app in Hnd as (_ & Hdisj & _).
  apply Hdisj. eapply rootRefs_elem; eauto.
Qed.

(** Two walks from parentless objects that end in the same object are the
    same walk. *)
Lemma walk_inj (h : list Node) (r1 r2 : addr) (p q : list nat) (a : addr) :
  NoDup (childRefs h) -> r1 ∉ childRefs h -> r2 ∉ childRefs h ->
  walk h (Ref r1) p = Some (Ref a) -> walk h (Ref r2) q = Some (Ref a) ->
  r1 = r2 /\ p = q.
Proof.
  intros Hnd Hr1 Hr2. revert q a.
  induction p as [|i p IH] using rev_ind; intros q a Hp Hq.
  - simpl in Hp. injection Hp as <-.
    destruct q as [|j q _] using rev_ind.
    + simpl in Hq. injection Hq as ->. auto.
    + apply walk_snoc_Some in Hq as (b & cs & _ & Hb & Hj).
      exfalso. apply Hr1. eapply childRefs_lookup; eauto.
  - apply walk_snoc_Some in Hp as (b & cs & Hp & Hb & Hi).
    destruct q as [|j q _] using rev_ind.
    + simpl in Hq. injection Hq as ->.
      exfalso. apply Hr2. eapply childRefs_lookup; eauto.
    + apply walk_snoc_Some in Hq as (b' & cs' & Hq & Hb' & Hj).
      destruct (childRefs_NoDup h b b' cs cs' i j a Hnd Hb Hi Hb' Hj) as [<- <-].
      destruct (IH q b Hp Hq) as [-> ->]. auto.
Qed.

(** ** Replacing a slot *)

Lemma childAtIndex_set_other (h : list Node) (a : addr) (i : nat) (x e : Expr) (k : nat) :
  ~ (e = Ref a /\ k = i) ->
  childAtIndex (setChildAtIndex h (Ref a) (Some i) x) e k = childAtIndex h e k.
Proof.
  intros Hne. unfold setChildAtIndex.
  destruct (h !! a) as [[t|cs]|] eqn:Ha; try reflexivity.
  destruct e as [|b]; [reflexivity|]. simpl.
  destruct (decide (b = a)) as [->|Hba].
  - rewrite list_lookup_insert_eq by (eapply lookup_lt_Some; eauto).
    rewrite Ha. apply list_lookup_insert_ne. intros ->. apply Hne. auto.
  - rewrite list_lookup_insert_ne by congruence. reflexivity.
Qed.

Lemma childAtIndex_set_same (h : list Node) (a : addr) (i : nat) (x c : Expr) :
  childAtIndex h (Ref a) i = Some c ->
  childAtIndex (setChildAtIndex h (Ref a) (Some i) x) (Ref a) i = Some x.
Proof.
  intros (a' & cs & [= <-] & Ha & Hc)%childAtIndex_Some.
  unfold setChildAtIndex. rewrite Ha. simpl.
  rewrite list_lookup_insert_eq by (eapply lookup_lt_Some; eauto).
  apply list_lookup_insert_eq. eapply lookup_lt_Some; eauto.
Qed.

Lemma isSExpr_set (h : list Node) (a : addr) (i : option nat) (x e : Expr) :
  isSExpr (setChildAtIndex h (Ref a) i x) e = isSExpr h e.
Proof.
  unfold setChildAtIndex. destruct i as [i|]; [|reflexivity].
  destruct (h !! a) as [[t|cs]|] eqn:Ha; try reflexivity.
  destruct e as [|b]; [reflexivity|]. simpl.
  destruct (decide (b = a)) as [->|Hba].
  - rewrite list_lookup_insert_eq by (eapply lookup_lt_Some; eauto).
    rewrite Ha. reflexivity.
  - rewrite list_lookup_insert_ne by congruence. reflexivity.
Qed.

(** ** Slots on the way of a walk *)

Lemma onPath_prefix (h : list Node) (r : Expr) (p1 p : list nat) (a : addr) (i : nat) :
  onPath h r p1 a i -> p1 `prefix_of` p -> onPath h r p a i.
Proof.
  intros (q1 & q2 & -> & Hq) [k ->]. exists q1, (q2 ++ k).
  split; [|exact Hq]. rewrite <- app_assoc. reflexivity.
Qed.

Lemma onPath_cons (h : list Node) (r c : Expr) (k : nat) (p : list nat) (a : addr) (i : nat) :
  childAtIndex h r k = Some c -> onPath h c p a i -> onPath h r (k :: p) a i.
Proof.
  intros Hc (q1 & q2 & -> & Hq). exists (k :: q1), q2. split; [reflexivity|].
  rewrite walk_cons, Hc. exact Hq.
Qed.

(** Replacing a slot that is not on the way leaves the walk as it was. *)
Lemma walk_set_frame (h : list Node) (r : Expr) (p : list nat) (a : addr) (i : nat) (x : Expr) :
  ~ onPath h r p a i ->
  walk (setChildAtIndex h (Ref a) (Some i) x) r p = walk h r p.
Proof.
  revert r. induction p as [|k p IH]; intros r Hnot; [reflexivity|].
  rewrite !walk_cons. rewrite childAtIndex_set_other.
  - destruct (childAtIndex h r k) as [c|] eqn:Hc; [|reflexivity]. simpl.
    apply IH. intros Hon. apply Hnot. eapply onPath_cons; eauto.
  - intros [-> ->]. apply Hnot. exists [], p. auto.
Qed.

Lemma onPath_set_frame (h : list Node) (r : Expr) (p : list nat) (a b : addr)
    (i j : nat) (x : Expr) :
  ~ onPath h r p b j ->
  onPath (setChildAtIndex h (Ref b) (Some j) x) r p a i -> onPath h r p a i.
Proof.
  intros Hnot (q1 & q2 & -> & Hq). exists q1, q2. split; [reflexivity|].
  rewrite walk_set_frame in Hq; [exact Hq|].
  intros Hon. apply Hnot. eapply onPath_prefix; [exact Hon|].
  exists (i :: q2). reflexivity.
Qed.

(** A well-formed store has no cycle through a parentless object. *)
Lemma walk_not_onPath_self (h : list Node) (r : addr) (p : list nat) (a : addr) (i : nat) :
  NoDup (childRefs h) -> r ∉ childRefs h ->
  walk h (Ref r) p = Some (Ref a) -> ~ onPath h (Ref r) p a i.
Proof.
  intros Hnd Hr Hp (q1 & q2 & Heq & Hq).
  destruct (walk_inj h r r p q1 a Hnd Hr Hr Hp Hq) as [_ ->].
  apply (f_equal length) in Heq. rewrite length_app in Heq. simpl in Heq. lia.
Qed.

(** A slot of another location lies on the way only if that location's
    path is a prefix, in the same tree. *)
Lemma onPath_other_prefix (h : list Node) (r1 r2 : addr) (p q : list nat)
    (a : addr) (i : nat) :
  NoDup (childRefs h) -> r1 ∉ childRefs h -> r2 ∉ childRefs h ->
  walk h (Ref r1) p = Some (Ref a) -> onPath h (Ref r2) q a i ->
  r1 = r2 /\ (p ++ [i]) `prefix_of` q.
Proof.
  intros Hnd Hr1 Hr2 Hp (q1 & q2 & -> & Hq).
  destruct (walk_inj h r1 r2 p q1 a Hnd Hr1 Hr2 Hp Hq) as [-> ->].
  split; [reflexivity|]. exists q2. rewrite <- app_assoc. reflexivity.
Qed.

Lemma walk_hole (h : list Node) (p : list nat) (e : Expr) :
  walk h hole p = Some e -> p = [].
Proof. destruct p; [reflexivity | discriminate]. Qed.

(** ** Running the mutations *)

Lemma exprForIndexPathInTree_Some (t : Tree) (p : list nat) (F : Forest) (e : Expr) :
  walk (heap F) (tree_root t) p = Some e ->
  exprForIndexPathInTree t p F = (Normal e, F).
Proof. intros H. unfold exprForIndexPathInTree. rewrite H. reflexivity. Qed.

Lemma slice_0_m1_snoc (p : list nat) (i : nat) : slice_0_m1 (p ++ [i]) = p.
Proof. apply removelast_last. Qed.

Lemma at_m1_snoc (p : list nat) (i : nat) : at_m1 (p ++ [i]) = Some i.
Proof. apply last_snoc. Qed.

Lemma length_lt_2_false (p : list nat) :
  2 <= length p -> (length p <? 2)%nat = false.
Proof. intros H. apply Nat.ltb_ge. exact H. Qed.

(** The three cases in which [moveExprInTree] returns at once. *)
Lemma moveExprInTree_noop (F : Forest) (src dst : TreeIndexPath) :
  length (path dst) = 0
  \/ (exists s d,
        walk (heap F) (tree_root (tree src)) (path src) = Some s
        /\ walk (heap F) (tree_root (tree dst)) (path dst) = Some d
        /\ (d = s \/ d = tree_root (tree dst))) ->
  moveExprInTree src dst F = (Normal tt, F).
Proof.
  unfold moveExprInTree.
  intros [Hlen|(s & d & Hs & Hd & Hsame)].
  - rewrite Hlen. reflexivity.
  - destruct (length (path dst) <? 2)%nat eqn:Hlen; [reflexivity|].
    destruct (nonempty_snoc (path dst)) as (dp & j & Hdp).
    { intros Hnil. rewrite Hnil in Hlen. discriminate. }
    unfold bind.
    rewrite (exprForIndexPathInTree_Some _ _ _ _ Hs).
    rewrite (exprForIndexPathInTree_Some _ _ _ _ Hd).
    rewrite Hdp in Hd |- *. rewrite slice_0_m1_snoc.
    apply walk_snoc_Some in Hd as (pd & cs & Hpd & Hcs & Hj).
    rewrite (exprForIndexPathInTree_Some _ _ _ _ Hpd).
    unfold requireSExpr. simpl. rewrite Hcs.
    destruct Hsame as [->| ->].
    + rewrite bool_decide_eq_true_2 by reflexivity. reflexivity.
    + rewrite (bool_decide_eq_true_2 (tree_root (tree dst) = tree_root (tree dst)))
        by reflexivity.
      rewrite orb_true_r. reflexivity.
Qed.

#[local] Arguments setChildAtIndex : simpl never.

Lemma treeByID_None (id : string) (F : Forest) :
  (forall t, t ∈ trees_ F -> tree_id t <> id) -> treeByID id F = None.
Proof.
  unfold treeByID. induction (trees_ F) as [|t ts IH]; intros H; [reflexivity|].
  simpl. rewrite bool_decide_eq_false_2.
  - apply IH. intros t' Ht'. apply H. right. exact Ht'.
  - apply H. left.
Qed.

Lemma pretty_succ_not_handed_out (n : N) : pretty (n + 1)%N ∉ idsUpTo n.
Proof.
  unfold idsUpTo. intros (k & Hk & Hin)%list_elem_of_fmap.
  apply (inj pretty) in Hk. apply elem_of_seq in Hin. lia.
Qed.

Lemma moveExprInTree_moves (F : Forest) (src dst : TreeIndexPath) (s d : Expr) :
  wf F -> tree src ∈ trees_ F -> tree dst ∈ trees_ F ->
  2 <= length (path dst) ->
  walk (heap F) (tree_root (tree src)) (path src) = Some s ->
  walk (heap F) (tree_root (tree dst)) (path dst) = Some d ->
  d <> s -> d <> tree_root (tree dst) ->
  (tree_root (tree src) = tree_root (tree dst) ->
     ~ path src `prefix_of` path dst /\ ~ path dst `prefix_of` path src) ->
  exists F',
    moveExprInTree src dst F = (Normal tt, F')
    /\ walk (heap F') (tree_root (tree dst)) (path dst) = Some s
    /\ match path src with
       | [] => treeByID (tree_id (tree src)) F' = None
       | _ :: _ => walk (heap F') (tree_root (tree src)) (path src) = Some hole
       end.
Proof.
  destruct src as [st spath], dst as [dt dpath]. simpl.
  intros Hwf Hst Hdt Hlen Hs Hd Hds Hdroot Hpre.
  assert (NoDup (childRefs (heap F))) as Hndc.
  { destruct Hwf as [Hnd _]. apply NoDup_app in Hnd. tauto. }
  destruct (nonempty_snoc dpath) as (dp & j & ->).
  { intros ->. simpl in Hlen. lia. }
  pose proof Hd as Hd'.
  apply walk_snoc_Some in Hd' as (pd & cs & Hpd & Hcs & Hj).
  assert (childAtIndex (heap F) (Ref pd) j = Some d) as Hcd.
  { apply childAtIndex_Some. eauto. }
  unfold moveExprInTree. simpl.
  rewrite (length_lt_2_false _ Hlen). unfold bind at 1.
  rewrite (exprForIndexPathInTree_Some _ _ _ _ Hs).
  unfold bind at 1.
  rewrite (exprForIndexPathInTree_Some _ _ _ _ Hd).
  unfold bind at 1. rewrite slice_0_m1_snoc.
  rewrite (exprForIndexPathInTree_Some _ _ _ _ Hpd).
  unfold bind at 1. unfold requireSExpr at 1. simpl isSExpr. rewrite Hcs.
  rewrite (bool_decide_eq_false_2 _ Hds), (bool_decide_eq_false_2 _ Hdroot).
  simpl orb. cbv iota. rewrite at_m1_snoc.
  destruct (tree_root dt) as [|rd] eqn:Hrd.
  { apply walk_hole in Hd. destruct dp; discriminate. }
  assert (rd ∉ childRefs (heap F)) as Hrdc
    by (eapply wf_root_not_child; eauto).
  assert (~ onPath (heap F) (Ref rd) dp pd j) as Hacyc_d
    by (apply walk_not_onPath_self; auto).
  destruct spath as [|i0 spath0].
  - (* the source is the root of its tree *)
    simpl in Hs. injection Hs as <-.
    rewrite bool_decide_eq_true_2 by reflexivity.
    assert (walk (setChildAtIndex (heap F) (Ref pd) (Some j) (tree_root st))
                 (Ref rd) (dp ++ [j]) = Some (tree_root st)) as HA.
    { rewrite walk_snoc, walk_set_frame, Hpd by exact Hacyc_d. simpl.
      eapply childAtIndex_set_same; eauto. }
    assert (forall t, t ∈ filter (fun t' => tree_id t' <> tree_id st) (trees_ F) ->
                      tree_id t <> tree_id st) as Hgone.
    { intros t [Ht _]%list_elem_of_filter. exact Ht. }
    unfold bind, removeTree, setChild, modify, newTree, ret. simpl.
    destruct (isHole d) eqn:Hhole; simpl; eexists; (split; [reflexivity|]); simpl;
      (split; [exact HA|]); apply treeByID_None; simpl; [exact Hgone|].
    intros t [Ht| ->%list_elem_of_singleton]%elem_of_app; [auto|]. simpl.
    intros Heq. destruct Hwf as [_ Hids].
    rewrite Forall_forall in Hids. specialize (Hids _ Hst). rewrite <- Heq in Hids.
    exact (pretty_succ_not_handed_out _ Hids).
  - (* the source has a parent *)
    destruct (nonempty_snoc (i0 :: spath0)) as (sp & i & Hsp); [discriminate|].
    rewrite Hsp in *. clear Hsp i0 spath0.
    pose proof Hs as Hs'.
    apply walk_snoc_Some in Hs' as (ps & cs' & Hps & Hcs' & Hi).
    assert (childAtIndex (heap F) (Ref ps) i = Some s) as Hcsrc.
    { apply childAtIndex_Some. eauto. }
    destruct (tree_root st) as [|rs] eqn:Hrs.
    { apply walk_hole in Hs. destruct sp; discriminate. }
    assert (rs ∉ childRefs (heap F)) as Hrsc
      by exact (wf_root_not_child F st rs Hwf Hst Hrs).
    assert (s <> Ref rs) as Hsroot.
    { intros ->. apply Hrsc. eapply childRefs_lookup; eauto. }
    rewrite (bool_decide_eq_false_2 _ Hsroot).
    assert (exprForIndexPathInTree st sp F = (Normal (Ref ps), F)) as Hrun.
    { apply exprForIndexPathInTree_Some. rewrite Hrs. exact Hps. }
    rewrite slice_0_m1_snoc, at_m1_snoc.
    set (h1 := setChildAtIndex (heap F) (Ref ps) (Some i) hole).
    set (h2 := setChildAtIndex h1 (Ref pd) (Some j) s).
    assert (~ (pd = ps /\ j = i)) as Hslots.
    { intros [-> ->]. rewrite Hcs in Hcs'. injection Hcs' as <-. congruence. }
    assert (~ onPath (heap F) (Ref rd) dp ps i) as N1.
    { intros Hon.
      destruct (onPath_other_prefix _ rs rd sp dp ps i Hndc Hrsc Hrdc Hps Hon)
        as [-> [k Hk]].
      destruct Hpre as [Hpre _]; [reflexivity|]. apply Hpre.
      exists (k ++ [j]). rewrite Hk, <- app_assoc. reflexivity. }
    assert (~ onPath h1 (Ref rd) dp pd j) as N2.
    { intros Hon. apply Hacyc_d. eapply onPath_set_frame; eauto. }
    assert (~ onPath (heap F) (Ref rs) sp ps i) as M1
      by (apply walk_not_onPath_self; auto).
    assert (~ onPath h1 (Ref rs) sp pd j) as M2.
    { intros Hon. apply (onPath_set_frame _ _ _ _ _ _ _ _ M1) in Hon.
      destruct (onPath_other_prefix _ rd rs dp sp pd j Hndc Hrdc Hrsc Hpd Hon)
        as [-> [k Hk]].
      destruct Hpre as [_ Hpre]; [reflexivity|]. apply Hpre.
      exists (k ++ [i]). rewrite Hk, <- app_assoc. reflexivity. }
    assert (childAtIndex h1 (Ref pd) j = Some d) as Hcd1.
    { unfold h1. rewrite childAtIndex_set_other; [exact Hcd|].
      intros [[= ->] ->]. tauto. }
    assert (childAtIndex h1 (Ref ps) i = Some hole) as Hcs1.
    { unfold h1. eapply childAtIndex_set_same; eauto. }
    assert (walk h2 (Ref rd) (dp ++ [j]) = Some s) as HA.
    { rewrite walk_snoc.
      replace (walk h2 (Ref rd) dp) with (Some (Ref pd)).
      - change (childAtIndex h2 (Ref pd) j = Some s).
        unfold h2. eapply childAtIndex_set_same; eauto.
      - unfold h2. rewrite walk_set_frame by exact N2.
        unfold h1. rewrite walk_set_frame by exact N1. symmetry; exact Hpd. }
    assert (walk h2 (Ref rs) (sp ++ [i]) = Some hole) as HB.
    { rewrite walk_snoc.
      replace (walk h2 (Ref rs) sp) with (Some (Ref ps)).
      - change (childAtIndex h2 (Ref ps) i = Some hole).
        unfold h2. rewrite childAtIndex_set_other; [exact Hcs1|].
        intros [[= ->] ->]. tauto.
      - unfold h2. rewrite walk_set_frame by exact M2.
        unfold h1. rewrite walk_set_frame by exact M1. symmetry; exact Hps. }
    cbn [orb]. unfold bind. cbv beta. rewrite Hrun. unfold requireSExpr. simpl isSExpr. rewrite Hcs'.
    unfold setChild, modify, newTree, ret. simpl.
    destruct (isHole d) eqn:Hhole; simpl; eexists; (split; [reflexivity|]); simpl;
      split; assumption.
Qed.

(** C5, as stated, fails: in the tree [(g (h (f (k y))))] moving [(k y)]
    onto its parent [(f (k y))] is none of the no-op cases, yet afterwards
    the source location [1,1,1] of the tree, which is still in the forest,
    resolves to [y] and not to a hole. *)
Lemma moveExprInTree_onto_ancestor :
  ~ move_claim forestB {| tree := tree1; path := [1; 1; 1] |}
                       {| tree := tree1; path := [1; 1] |}.
Proof.
  intros Hclaim.
  destruct (Hclaim _ eq_refl) as [_ Hpost].
  destruct Hpost as [[Hgone|[Hnone|Hhole]] _]; try discriminate.
  intros [Hlen|(s & d & Hs & Hd & [Heq|Heq])]; [discriminate| |].
  - vm_compute in Hs, Hd. congruence.
  - vm_compute in Hd, Heq. congruence.
Qed.

(** C5 (amended): [moveExprInTree] leaves the forest as it is when the
    destination path has length 0, or when the destination resolves to the
    source node or to the root of the destination tree.  In a well-formed
    forest, when the destination path has length at least 2, both locations
    resolve, the destination node is neither the source node nor the root,
    and neither location lies inside the other, the move succeeds; after it
    the destination location resolves to the original source node, and the
    source tree is gone from the forest (source at the root) or the source
    location resolves to a hole. *)
Theorem moveExprInTree_amended (F : Forest) (src dst : TreeIndexPath) :
  (noop_case F src dst -> moveExprInTree src dst F = (Normal tt, F))
  /\ (forall s d,
        wf F -> tree src ∈ trees_ F -> tree dst ∈ trees_ F ->
        2 <= length (path dst) ->
        walk (heap F) (tree_root (tree src)) (path src) = Some s ->
        walk (heap F) (tree_root (tree dst)) (path dst) = Some d ->
        d <> s -> d <> tree_root (tree dst) ->
        (tree_root (tree src) = tree_root (tree dst) ->
           ~ path src `prefix_of` path dst /\ ~ path dst `prefix_of` path src) ->
        exists F',
          moveExprInTree src dst F = (Normal tt, F')
          /\ walk (heap F') (tree_root (tree dst)) (path dst) = Some s
          /\ match path src with
             | [] => treeByID (tree_id (tree src)) F' = None
             | _ :: _ =>
                 walk (heap F') (tree_root (tree src)) (path src) = Some hole
             end).
Proof.
  split.
  - apply moveExprInTree_noop.
  - intros s d. apply moveExprInTree_moves.
Qed.

(** The amended C5 on the trees [(f x)] and [(g (h _))]: [x] is moved into
    the hole. *)
Lemma moveExprInTree_amended_witness :
  exists F',
    moveExprInTree {| tree := tree1; path := [1] |}
                   {| tree := tree2; path := [1; 1] |} forestA = (Normal tt, F')
    /\ walk (heap F') (Ref 3) [1; 1] = Some (Ref 2)
    /\ walk (heap F') (Ref 0) [1] = Some hole.
Proof.
  apply (proj2 (moveExprInTree_amended forestA
                  {| tree := tree1; path := [1] |}
                  {| tree := tree2; path := [1; 1] |}) (Ref 2) hole).
  - split.
    + apply (bool_decide_unpack _). vm_compute. exact I.
    + apply (bool_decide_unpack _). vm_compute. exact I.
  - apply (bool_decide_unpack _). vm_compute. exact I.
  - apply (bool_decide_unpack _). vm_compute. exact I.
  - simpl. lia.
  - reflexivity.
  - reflexivity.
  - discriminate.
  - discriminate.
  - discriminate.
Defined.

(** ** [copyExprInTree] *)

(** With a source below its root and a destination that cannot be resolved,
    [copyExprInTree] throws, and the source slot stays emptied. *)
Lemma copyExprInTree_invalid_destination (F : Forest) (st dt : Tree)
    (p dpath : list nat) (i : nat) (parent s : Expr) :
  2 <= length dpath ->
  walk (heap F) (tree_root st) p = Some parent ->
  childAtIndex (heap F) parent i = Some s ->
  s <> tree_root st ->
  walk (setChildAtIndex (heap F) parent (Some i) hole) (tree_root dt) dpath = None ->
  copyExprInTree {| tree := st; path := p ++ [i] |} {| tree := dt; path := dpath |} F
  = (Throw invalid_index_path,
     {| heap := setChildAtIndex (heap F) parent (Some i) hole;
        trees_ := trees_ F;
        nextID := nextID F |}).
Proof.
  intros Hlen Hparent Hchild Hroot Hdst.
  assert (walk (heap F) (tree_root st) (p ++ [i]) = Some s) as Hs.
  { rewrite walk_snoc, Hparent. exact Hchild. }
  unfold copyExprInTree. simpl.
  rewrite (length_lt_2_false _ Hlen). unfold bind at 1.
  rewrite (exprForIndexPathInTree_Some _ _ _ _ Hs).
  rewrite (bool_decide_eq_false_2 _ Hroot).
  rewrite slice_0_m1_snoc, at_m1_snoc.
  unfold bind at 1. unfold bind at 1.
  rewrite (exprForIndexPathInTree_Some _ _ _ _ Hparent).
  unfold bind at 1. unfold requireSExpr at 1.
  rewrite (childAtIndex_isSExpr _ _ _ _ Hchild).
  unfold setChild at 1. unfold modify at 1.
  unfold bind at 1. unfold exprForIndexPathInTree at 1. simpl.
  rewrite Hdst. reflexivity.
Qed.

(** C4 fails on the code: [copyExprInTree] empties the source slot (or
    removes the source tree) before it resolves the destination.  With an
    invalid destination path it throws after the source [x] of [(f x)] has
    become a hole; and copying a node onto itself replaces it by a copy made
    of new objects. *)
Theorem copyExprInTree_mutates_first :
  (exists F',
     copyExprInTree {| tree := tree1; path := [1] |}
                    {| tree := tree2; path := [0; 0] |} forestA
     = (Throw "invalid index path for tree", F')
     /\ walk (heap forestA) (Ref 0) [1] = Some (Ref 2)
     /\ walk (heap F') (Ref 0) [1] = Some hole
     /\ F' <> forestA)
  /\ (exists F',
        copyExprInTree {| tree := tree1; path := [1; 1] |}
                       {| tree := tree1; path := [1; 1] |} forestB
        = (Normal tt, F')
        /\ walk (heap forestB) (Ref 0) [1; 1] = Some (Ref 4)
        /\ walk (heap F') (Ref 0) [1; 1] = Some (Ref 9)
        /\ F' <> forestB).
Proof.
  split; eexists; (split; [vm_compute; reflexivity|]);
    (split; [reflexivity|]); (split; [reflexivity|]); discriminate.
Qed.

(** ** [orphanExpr] *)

(** A root that is a leaf or a hole is recognised, and nothing happens. *)
Lemma orphanExpr_root_leaf (F : Forest) (t : Tree) :
  isSExpr (heap F) (tree_root t) = false ->
  orphanExpr {| tree := t; path := [] |} F = (Normal tt, F).
Proof.
  intros Hleaf. unfold orphanExpr, bind, exprForIndexPathInTree, gets. simpl.
  rewrite Hleaf. reflexivity.
Qed.

(** A root that is an S-expression is not: it becomes the root of one more
    tree. *)
Lemma orphanExpr_root_SExpr (F : Forest) (t : Tree) :
  isSExpr (heap F) (tree_root t) = true ->
  orphanExpr {| tree := t; path := [] |} F
  = (Normal tt,
     {| heap := heap F;
        trees_ := trees_ F ++ [{| tree_id := pretty (nextID F + 1)%N;
                                  tree_root := tree_root t;
                                  tree_location := None |}];
        nextID := nextID F + 1 |}).
Proof.
  intros Hsexpr. unfold orphanExpr, bind, exprForIndexPathInTree, gets. simpl.
  rewrite Hsexpr. simpl.
  destruct (tree_root t) as [|a]; [discriminate|]. reflexivity.
Qed.

(** Below the root, the node is detached: its slot becomes a hole, and the
    node, unless it is a hole, is the root of a new tree. *)
Lemma orphanExpr_detaches (F : Forest) (t : Tree) (p : list nat) (i : nat) (e : Expr) :
  wf F -> t ∈ trees_ F ->
  walk (heap F) (tree_root t) (p ++ [i]) = Some e ->
  exists F',
    orphanExpr {| tree := t; path := p ++ [i] |} F = (Normal tt, F')
    /\ walk (heap F') (tree_root t) (p ++ [i]) = Some hole
    /\ trees_ F'
       = trees_ F ++
         (if isHole e then []
          else [{| tree_id := pretty (nextID F + 1)%N;
                   tree_root := e;
                   tree_location := None |}]).
Proof.
  intros Hwf Ht He.
  assert (NoDup (childRefs (heap F))) as Hndc.
  { destruct Hwf as [Hnd _]. apply NoDup_app in Hnd. tauto. }
  pose proof He as He'.
  apply walk_snoc_Some in He' as (a & cs & Ha & Hcs & Hi).
  assert (childAtIndex (heap F) (Ref a) i = Some e) as Hce.
  { apply childAtIndex_Some. eauto. }
  unfold orphanExpr. simpl. unfold bind at 1.
  rewrite (exprForIndexPathInTree_Some _ _ _ _ He).
  unfold bind at 1. rewrite slice_0_m1_snoc, at_m1_snoc.
  rewrite (exprForIndexPathInTree_Some _ _ _ _ Ha).
  assert (isSExpr (heap F) (Ref a) = true) as Hsexpr
    by (simpl; rewrite Hcs; reflexivity).
  unfold bind at 1. unfold gets at 1. cbv beta. rewrite Hsexpr.
  cbn [negb].
  destruct (tree_root t) as [|r] eqn:Hr.
  { apply walk_hole in He. destruct p; discriminate. }
  assert (r ∉ childRefs (heap F)) as Hrc
    by exact (wf_root_not_child F t r Hwf Ht Hr).
  assert (walk (setChildAtIndex (heap F) (Ref a) (Some i) hole) (Ref r) (p ++ [i])
          = Some hole) as Hwalk.
  { rewrite walk_snoc, walk_set_frame, Ha
      by (apply walk_not_onPath_self; auto).
    eapply childAtIndex_set_same; eauto. }
  unfold bind, setChild, modify, newTree, ret. simpl.
  destruct (isHole e); simpl; eexists; (split; [reflexivity|]); simpl;
    (split; [exact Hwalk|]).
  - rewrite app_nil_r. reflexivity.
  - reflexivity.
Qed.

(** C6 fails on the code: the parent of a root location is looked up with
    the empty path, which gives the root itself; when the root is an
    S-expression the early return is not taken, and [orphanExpr] creates a
    second tree with the same root. *)
Theorem orphanExpr_root_not_noop :
  exists F',
    orphanExpr {| tree := tree1; path := [] |} forestA = (Normal tt, F')
    /\ trees_ F'
       = [tree1; tree2;
          {| tree_id := "3"; tree_root := Ref 0; tree_location := None |}]
    /\ F' <> forestA.
Proof.
  eexists. split; [vm_compute; reflexivity|]. split; [reflexivity | discriminate].
Qed.

(* ===================================================================== *)
(** * Further properties of types and substitution *)
(* ===================================================================== *)

(** X1: a function type carries its parameter types followed by its result
    type: for the type parameters [args ++ [r]], also under quantifiers,
    [functionParamTypes] gives [args] and [functionResultType] gives [r];
    without type parameters they give no parameter types and [Any]. *)
Theorem function_type_parts (fnType : Ty) (args : list Ty) (r : Ty) :
  (typeParams fnType = args ++ [r] ->
   functionParamTypes fnType = args /\ functionResultType fnType = r)
  /\ (typeParams fnType = [] ->
      functionParamTypes fnType = [] /\ functionResultType fnType = Any)
  /\ (forall tag mn mx slots,
        typeParams (ForallType slots (Concrete tag (Some (args ++ [r])) mn mx))
        = args ++ [r]).
Proof.
  unfold functionParamTypes, functionResultType. split; [|split].
  - intros ->. rewrite removelast_last, last_snoc. auto.
  - intros ->. auto.
  - reflexivity.
Qed.

(** X1 at [Function[Number, String, Boolean]] under a quantifier. *)
Lemma function_type_parts_witness :
  functionParamTypes
    (ForallType [TypeNameBinding "a"]
       (Concrete "Function" (Some [Number; Tag "String"; Tag "Boolean"]) None None))
  = [Number; Tag "String"]
  /\ functionResultType
       (ForallType [TypeNameBinding "a"]
          (Concrete "Function" (Some [Number; Tag "String"; Tag "Boolean"]) None None))
     = Tag "Boolean".
Proof.
  apply (proj1 (function_type_parts
                  (ForallType [TypeNameBinding "a"]
                     (Concrete "Function"
                        (Some [Number; Tag "String"; Tag "Boolean"]) None None))
                  [Number; Tag "String"] (Tag "Boolean"))).
  reflexivity.
Defined.

(** X2: [typeStructureMap] maps [fn] over the type parameters, also through
    quantifiers, and keeps the tag; type variables and slots are returned as
    they are. *)
Theorem typeStructureMap_params (t : Ty) (fn : Ty -> Ty) :
  typeParams (typeStructureMap t fn) = map fn (typeParams t)
  /\ (forall tag, hasTag (typeStructureMap t fn) tag = hasTag t tag)
  /\ (forall v, typeStructureMap (TypeVar v) fn = TypeVar v)
  /\ (forall s, typeStructureMap (Slot s) fn = Slot s).
Proof.
  split; [|split; [|split; reflexivity]].
  - induction t as [tag of_ mn mx _|slots body IH|v|s] using Ty_nested_ind;
      simpl; auto.
  - intros tag. destruct t; reflexivity.
Qed.

(** X3: mapping [f] and then [g] over the structure of a type is mapping
    their composition. *)
Theorem typeStructureMap_compose (t : Ty) (f g : Ty -> Ty) :
  typeStructureMap (typeStructureMap t f) g = typeStructureMap t (fun u => g (f u)).
Proof.
  induction t as [tag of_ mn mx _|slots body IH|v|s] using Ty_nested_ind;
    simpl; try reflexivity.
  - rewrite map_map. reflexivity.
  - rewrite IH. reflexivity.
Qed.

(** ** Laws of [typeSubstitute] *)

Lemma typeSubstitute_Concrete (tag : string) (l : list Ty)
    (mn mx : option nat) (sub : TypeSubstitution) :
  typeSubstitute (Concrete tag (Some l) mn mx) sub
  = match map_inside (fun p => typeSubstitute p sub) l with
    | Some [] => Some (Tag tag)
    | Some params => Some (Concrete tag (Some params) None None)
    | None => None
    end.
Proof. reflexivity. Qed.

Lemma map_inside_ext {A B} (f g : A -> option B) (l : list A) :
  Forall (fun x => f x = g x) l -> map_inside f l = map_inside g l.
Proof.
  induction 1 as [|x l Hx _ IH]; simpl; [reflexivity|].
  rewrite Hx, IH. reflexivity.
Qed.

Lemma map_inside_compose {A B} (f1 f12 : A -> option B) (f2 : B -> option B)
    (l : list A) (ps : list B) :
  Forall (fun x => forall y, f1 x = Some y -> f2 y = f12 x) l ->
  map_inside f1 l = Some ps ->
  map_inside f2 ps = map_inside f12 l.
Proof.
  intros H. revert ps. induction H as [|x l Hx _ IH]; simpl; intros ps Hps.
  - injection Hps as <-. reflexivity.
  - destruct (f1 x) as [y|] eqn:Hy; [|discriminate].
    destruct (map_inside f1 l) as [ys|]; [|discriminate].
    injection Hps as <-. simpl.
    rewrite (Hx y eq_refl), (IH ys eq_refl). reflexivity.
Qed.

(** A type variable named like a property of [Object.prototype] reads
    that property in a mapping without an own key of the name: the value
    returned is not a Type.  An own key is read as usual. *)
Lemma typeSubstitute_inherited_name (sub : TypeSubstitution) (t : Ty) :
  typeSubstitute (TypeVar "constructor") ∅ = None
  /\ typeSubstitute (Concrete "List" (Some [TypeVar "toString"]) None None) ∅ = None
  /\ typeSubstitute (TypeVar "constructor") (<[ "constructor" := t ]> sub) = Some t.
Proof.
  split; [reflexivity|]. split; [reflexivity|].
  simpl. unfold getProperty. rewrite lookup_insert_eq. reflexivity.
Qed.

(** X4: when substituting [s1] into a type returns a type, substituting
    [s2] into that is substituting once into the first, with a mapping
    [s12] that sends every key of [s1] to its type substituted by [s2], and
    every other name as [s2] does. *)
Theorem typeSubstitute_compose (t t1 : Ty) (s1 s2 s12 : TypeSubstitution) :
  typeSubstitute t s1 = Some t1 ->
  (forall k u, s1 !! k = Some u ->
     exists w, typeSubstitute u s2 = Some w /\ s12 !! k = Some w) ->
  (forall k, s1 !! k = None -> s12 !! k = s2 !! k) ->
  typeSubstitute t1 s2 = typeSubstitute t s12.
Proof.
  intros Ht Hkeys Hother. revert t1 Ht.
  induction t as [tag of_ mn mx IH|slots body IH|v|s] using Ty_nested_ind;
    intros t1 Ht.
  - destruct of_ as [l|]; [|injection Ht as <-; reflexivity].
    specialize (IH l eq_refl).
    rewrite typeSubstitute_Concrete in Ht |- *.
    destruct (map_inside (fun p => typeSubstitute p s1) l) as [ps|] eqn:Hps;
      [|discriminate].
    rewrite <- (map_inside_compose _ _ (fun p => typeSubstitute p s2) l ps IH Hps).
    destruct ps as [|q qs]; injection Ht as <-; reflexivity.
  - simpl in Ht |- *.
    destruct (typeSubstitute body s1) as [body1|] eqn:Hbody; [|discriminate].
    injection Ht as <-. simpl. rewrite (IH body1 eq_refl). reflexivity.
  - simpl in Ht |- *. unfold getProperty in *.
    destruct (s1 !! v) as [u|] eqn:Hv.
    + injection Ht as <-. destruct (Hkeys v u Hv) as (w & Hw & H12).
      rewrite H12. exact Hw.
    + rewrite (Hother v Hv).
      destruct (bool_decide (v ∈ objectPrototypeKeys)) eqn:Hproto; [discriminate|].
      injection Ht as <-. simpl. unfold getProperty. rewrite Hproto. reflexivity.
  - injection Ht as <-. reflexivity.
Qed.

(** X4 at [List[a]] with [{a: b}] and then [{b: Number}]. *)
Lemma typeSubstitute_compose_witness :
  typeSubstitute (Concrete "List" (Some [TypeVar "b"]) None None) {[ "b" := Number ]}
  = typeSubstitute (Concrete "List" (Some [TypeVar "a"]) None None)
                   (<[ "a" := Number ]> {[ "b" := Number ]}).
Proof.
  apply (typeSubstitute_compose
           (Concrete "List" (Some [TypeVar "a"]) None None)
           (Concrete "List" (Some [TypeVar "b"]) None None)
           {[ "a" := TypeVar "b" ]} {[ "b" := Number ]}
           (<[ "a" := Number ]> {[ "b" := Number ]})).
  - reflexivity.
  - intros k u [<- <-]%lookup_singleton_Some. exists Number.
    split; reflexivity.
  - intros k Hk%lookup_singleton_None.
    rewrite lookup_insert_ne by exact Hk. reflexivity.
Defined.

Lemma some_throwing_false {A} (f : A -> option bool) (l : list A) :
  some_throwing f l = Some false -> Forall (fun x => f x = Some false) l.
Proof.
  induction l as [|x l IH]; simpl; [constructor|].
  destruct (f x) as [[|]|] eqn:Hx; try discriminate.
  intros H. constructor; auto.
Qed.

(** X5: when [typeVarOccurs] reports that a type variable does not occur in
    a type, a binding for it in the mapping makes no difference to
    [typeSubstitute]. *)
Theorem typeSubstitute_absent_variable (t : Ty) (x : string) (u : Ty)
    (sub : TypeSubstitution) :
  typeVarOccurs x t = Some false ->
  typeSubstitute t (<[x := u]> sub) = typeSubstitute t (delete x sub).
Proof.
  induction t as [tag of_ mn mx IH|slots body IH|v|s] using Ty_nested_ind;
    simpl; intros Hocc.
  - destruct of_ as [l|]; [|reflexivity].
    specialize (IH l eq_refl).
    apply some_throwing_false in Hocc.
    assert (map_inside (fun p => typeSubstitute p (<[x := u]> sub)) l
            = map_inside (fun p => typeSubstitute p (delete x sub)) l) as ->;
      [|reflexivity].
    apply map_inside_ext.
    induction IH as [|p l Hp _ IHl]; [constructor|].
    apply Forall_cons in Hocc as [Hp' Hl'].
    constructor; [exact (Hp Hp') | exact (IHl Hl')].
  - rewrite isTypeVarBoundBy_false in Hocc. rewrite (IH Hocc). reflexivity.
  - injection Hocc as Hne. apply bool_decide_eq_false in Hne.
    unfold getProperty.
    rewrite lookup_insert_ne, lookup_delete_ne by congruence. reflexivity.
  - reflexivity.
Qed.

(** X5 at [List[b]] and the variable [a]. *)
Lemma typeSubstitute_absent_variable_witness :
  typeSubstitute (Concrete "List" (Some [TypeVar "b"]) None None)
                 (<["a" := Number]> {[ "b" := Tag "String" ]})
  = typeSubstitute (Concrete "List" (Some [TypeVar "b"]) None None)
                   (delete "a" {[ "b" := Tag "String" ]}).
Proof.
  apply (typeSubstitute_absent_variable
           (Concrete "List" (Some [TypeVar "b"]) None None) "a" Number
           {[ "b" := Tag "String" ]}).
  reflexivity.
Defined.

Lemma some_throwing_existsb {A} (f : A -> option bool) (g : A -> bool)
    (l : list A) (b : bool) :
  Forall (fun x => forall b, f x = Some b -> b = g x) l ->
  some_throwing f l = Some b -> b = existsb g l.
Proof.
  induction 1 as [|x l Hx _ IH]; simpl; [congruence|].
  destruct (f x) as [[|]|] eqn:Hfx; try discriminate.
  - intros [= <-]. rewrite <- (Hx true eq_refl). reflexivity.
  - intros Hl. rewrite <- (Hx false eq_refl). simpl. auto.
Qed.

Lemma some_throwing_total {A} (f : A -> option bool) (g : A -> bool) (l : list A) :
  Forall (fun x => f x = Some (g x)) l ->
  some_throwing f l = Some (existsb g l).
Proof.
  induction 1 as [|x l Hx _ IH]; simpl; [reflexivity|].
  rewrite Hx. destruct (g x); [reflexivity | exact IH].
Qed.

(** X6: whenever [typeVarOccurs] returns, it tells whether the type variable
    occurs anywhere in the type, under a binder of its name or not; and it
    returns for every type in which no [TypeNameBinding] stands where a type
    is expected. *)
Theorem typeVarOccurs_anywhere (x : string) (t : Ty) :
  (forall b, typeVarOccurs x t = Some b -> b = occursAnywhere x t)
  /\ (bindingAsType t = false -> typeVarOccurs x t = Some (occursAnywhere x t)).
Proof.
  induction t as [tag of_ mn mx IH|slots body IH|v|s] using Ty_nested_ind; simpl.
  - destruct of_ as [l|]; [|split; [congruence | reflexivity]].
    specialize (IH l eq_refl). split.
    + intros b. apply some_throwing_existsb.
      eapply Forall_impl; [exact IH|]. simpl. tauto.
    + intros Hnb. apply some_throwing_total.
      induction IH as [|p l [_ Hp] _ IHl]; [constructor|].
      simpl in Hnb. apply orb_false_iff in Hnb as [Hnb1 Hnb2].
      constructor; auto.
  - rewrite isTypeVarBoundBy_false. exact IH.
  - split; [congruence | reflexivity].
  - destruct s; split; try congruence; try reflexivity; discriminate.
Qed.

(** X6 at [Forall([a], List[a])] and the variable [a]. *)
Lemma typeVarOccurs_anywhere_witness :
  typeVarOccurs "a"
    (ForallType [TypeNameBinding "a"] (Concrete "List" (Some [TypeVar "a"]) None None))
  = Some true.
Proof.
  apply (proj2 (typeVarOccurs_anywhere "a"
                  (ForallType [TypeNameBinding "a"]
                     (Concrete "List" (Some [TypeVar "a"]) None None)))).
  reflexivity.
Defined.

(* ===================================================================== *)
(** * Further properties of the forest *)
(* ===================================================================== *)

Lemma find_tree_id (ts : list Tree) (t : Tree) :
  NoDup (tree_id <$> ts) -> t ∈ ts ->
  find (fun tree => bool_decide (tree_id tree = tree_id t)) ts = Some t.
Proof.
  induction ts as [|t' ts IH]; simpl; intros Hnd Hin.
  - apply elem_of_nil in Hin as [].
  - apply NoDup_cons in Hnd as [Hnotin Hnd].
    apply elem_of_cons in Hin as [->|Hin].
    + rewrite bool_decide_eq_true_2; reflexivity.
    + rewrite bool_decide_eq_false_2; [apply IH; assumption|].
      intros Heq. apply Hnotin. rewrite Heq.
      apply list_elem_of_fmap. eauto.
Qed.

Lemma find_filter_other (ts : list Tree) (id id' : string) :
  id <> id' ->
  find (fun tree => bool_decide (tree_id tree = id))
       (filter (fun tree_ => tree_id tree_ ≠ id') ts)
  = find (fun tree => bool_decide (tree_id tree = id)) ts.
Proof.
  intros Hne. induction ts as [|t ts IH]; [reflexivity|].
  rewrite filter_cons. destruct (decide (tree_id t ≠ id')) as [Hk|Hk]; simpl.
  - rewrite IH. reflexivity.
  - rewrite IH. rewrite bool_decide_eq_false_2; [reflexivity|].
    intros Heq. apply Hk. congruence.
Qed.

Lemma find_snoc_other (ts : list Tree) (t : Tree) (id : string) :
  tree_id t <> id ->
  find (fun tree => bool_decide (tree_id tree = id)) (ts ++ [t])
  = find (fun tree => bool_decide (tree_id tree = id)) ts.
Proof.
  intros Hne. induction ts as [|t' ts IH]; simpl.
  - rewrite bool_decide_eq_false_2; [reflexivity | exact Hne].
  - rewrite IH. reflexivity.
Qed.

Lemma find_snoc_fresh (ts : list Tree) (t : Tree) :
  (forall t', t' ∈ ts -> tree_id t' <> tree_id t) ->
  find (fun tree => bool_decide (tree_id tree = tree_id t)) (ts ++ [t]) = Some t.
Proof.
  induction ts as [|t' ts IH]; simpl; intros Hfresh.
  - rewrite bool_decide_eq_true_2; reflexivity.
  - rewrite bool_decide_eq_false_2 by (apply Hfresh; left).
    apply IH. intros t'' Ht''. apply Hfresh. right. exact Ht''.
Qed.

Lemma idsUpTo_mono (n : N) (id : string) :
  id ∈ idsUpTo n -> id ∈ idsUpTo (n + 1).
Proof. rewrite idsUpTo_succ. intros H. apply elem_of_app. left. exact H. Qed.

Lemma ids_handed_out_fresh (F : Forest) (t : Tree) :
  Forall (fun t => tree_id t ∈ idsUpTo (nextID F)) (trees_ F) ->
  t ∈ trees_ F -> tree_id t <> pretty (nextID F + 1)%N.
Proof.
  intros Hids Ht Heq. rewrite Forall_forall in Hids.
  apply (pretty_succ_not_handed_out (nextID F)). rewrite <- Heq. auto.
Qed.

(** X7: in every session of [newTree] and [removeTree] calls started from
    the empty forest, [treeByID] called with the id of a tree of the forest
    returns that very tree. *)
Theorem treeByID_finds_tree (ops : list ForestOp) (t : Tree) :
  t ∈ trees (runOps ops).1 ->
  treeByID (tree_id t) (runOps ops).1 = Some t.
Proof.
  intros Ht. destruct (runOps_inv ops) as [Hids Hsub].
  apply find_tree_id; [|exact Ht].
  eapply sublist_NoDup; [|exact Hsub].
  rewrite Hids. apply idsUpTo_NoDup.
Qed.

(** X7 in the session that makes two trees and removes the first. *)
Lemma treeByID_finds_tree_witness :
  treeByID "2" (runOps [NewTree (Ref 0) None; NewTree hole None; RemoveTree tree1]).1
  = Some {| tree_id := "2"; tree_root := hole; tree_location := None |}.
Proof.
  apply (treeByID_finds_tree
           [NewTree (Ref 0) None; NewTree hole None; RemoveTree tree1]
           {| tree_id := "2"; tree_root := hole; tree_location := None |}).
  vm_compute. apply list_elem_of_here.
Defined.

(** X8: when every tree of the forest carries an id handed out so far,
    [newTree] returns a tree with the given root and an id that no tree of
    the forest carries; afterwards [treeByID] finds the new tree under its
    id and answers as before for every other id, and the trees again carry
    ids handed out so far. *)
Theorem newTree_fresh_id (F : Forest) (root : Expr) (location : option Point) :
  Forall (fun t => tree_id t ∈ idsUpTo (nextID F)) (trees_ F) ->
  exists t F',
    newTree root location F = (Normal t, F')
    /\ tree_root t = root /\ tree_location t = location
    /\ treeByID (tree_id t) F = None
    /\ treeByID (tree_id t) F' = Some t
    /\ (forall id, id <> tree_id t -> treeByID id F' = treeByID id F)
    /\ Forall (fun t => tree_id t ∈ idsUpTo (nextID F')) (trees_ F').
Proof.
  intros Hids. eexists _, _. split; [reflexivity|]. simpl.
  split; [reflexivity|]. split; [reflexivity|].
  split; [|split; [|split]].
  - apply treeByID_None. intros t Ht. apply ids_handed_out_fresh; assumption.
  - unfold treeByID. simpl.
    pose proof (find_snoc_fresh (trees_ F)
                  {| tree_id := pretty (nextID F + 1)%N; tree_root := root;
                     tree_location := location |}) as Hfind.
    cbn [tree_id] in Hfind. apply Hfind.
    intros t Ht. apply ids_handed_out_fresh; assumption.
  - intros id Hne. unfold treeByID. simpl. apply find_snoc_other. simpl. congruence.
  - apply Forall_app. split.
    + eapply Forall_impl; [exact Hids|]. intros t. apply idsUpTo_mono.
    + constructor; [|constructor]. simpl. rewrite idsUpTo_succ.
      apply elem_of_app. right. apply list_elem_of_here.
Qed.

(** X8 on the forest of the trees [(f x)] and [(g (h _))]. *)
Lemma newTree_fresh_id_witness :
  exists t F',
    newTree (Ref 2) None forestA = (Normal t, F')
    /\ tree_root t = Ref 2 /\ tree_location t = None
    /\ treeByID (tree_id t) forestA = None
    /\ treeByID (tree_id t) F' = Some t
    /\ (forall id, id <> tree_id t -> treeByID id F' = treeByID id forestA)
    /\ Forall (fun t => tree_id t ∈ idsUpTo (nextID F')) (trees_ F').
Proof.
  apply (newTree_fresh_id forestA (Ref 2) None).
  apply Forall_cons_2; [vm_compute; apply list_elem_of_here|].
  apply Forall_cons_2; [vm_compute; apply list_elem_of_further, list_elem_of_here|].
  apply Forall_nil_2.
Defined.

(** X9: [removeTree] goes by the id alone: afterwards [treeByID] finds no
    tree under the id of the tree given and answers as before for every
    other id, a tree record with the same id has the same effect, and
    neither the counter of ids nor the store is touched. *)
Theorem removeTree_by_id (tree : Tree) (F : Forest) :
  treeByID (tree_id tree) (removeTree tree F).2 = None
  /\ (forall id, id <> tree_id tree ->
        treeByID id (removeTree tree F).2 = treeByID id F)
  /\ (forall tree', tree_id tree' = tree_id tree ->
        removeTree tree' F = removeTree tree F)
  /\ nextID (removeTree tree F).2 = nextID F
  /\ heap (removeTree tree F).2 = heap F.
Proof.
  split; [|split; [|split; [|split; reflexivity]]].
  - apply treeByID_None. simpl. intros t Ht.
    apply list_elem_of_filter in Ht as [Hne _]. exact Hne.
  - intros id Hne. unfold treeByID. simpl. apply find_filter_other. exact Hne.
  - intros tree' Heq. unfold removeTree, modify. rewrite Heq. reflexivity.
Qed.

(** X10: removing the tree that [newTree] has just returned gives back the
    list of trees from before the call, but not the counter: the id is
    used up. *)
Theorem removeTree_newTree (F : Forest) (root : Expr) (location : option Point)
    (t : Tree) (F1 : Forest) :
  Forall (fun t => tree_id t ∈ idsUpTo (nextID F)) (trees_ F) ->
  newTree root location F = (Normal t, F1) ->
  trees (removeTree t F1).2 = trees F
  /\ nextID (removeTree t F1).2 = (nextID F + 1)%N
  /\ heap (removeTree t F1).2 = heap F.
Proof.
  intros Hids [= <- <-]. simpl. split; [|split; reflexivity].
  unfold trees. simpl. rewrite filter_app, filter_cons, filter_nil.
  rewrite decide_False by (intros H; apply H; reflexivity).
  rewrite app_nil_r.
  induction (trees_ F) as [|t ts IH]; [reflexivity|].
  apply Forall_cons in Hids as [Ht Hts].
  rewrite filter_cons, decide_True.
  - rewrite (IH Hts). reflexivity.
  - intros Heq. apply (pretty_succ_not_handed_out (nextID F)).
    rewrite <- Heq. exact Ht.
Qed.

(** X10 on the forest of the trees [(f x)] and [(g (h _))]. *)
Lemma removeTree_newTree_witness :
  trees (removeTree {| tree_id := "3"; tree_root := Ref 2; tree_location := None |}
           (newTree (Ref 2) None forestA).2).2
  = trees forestA.
Proof.
  apply (removeTree_newTree forestA (Ref 2) None
           {| tree_id := "3"; tree_root := Ref 2; tree_location := None |}
           (newTree (Ref 2) None forestA).2).
  - apply Forall_cons_2; [vm_compute; apply list_elem_of_here|].
    apply Forall_cons_2; [vm_compute; apply list_elem_of_further, list_elem_of_here|].
    apply Forall_nil_2.
  - vm_compute. reflexivity.
Defined.
(* ===================================================================== *)
(** * Further properties of the structural mutations *)
(* ===================================================================== *)

Lemma bind_run_Normal {S A B} (c : M S A) (k : A -> M S B) (s s' : S) (a : A) :
  c s = (Normal a, s') -> bind c k s = k a s'.
Proof. unfold bind. intros ->. reflexivity. Qed.

Lemma bind_run_Throw {S A B} (c : M S A) (k : A -> M S B) (s s' : S) (msg : string) :
  c s = (Throw msg, s') -> bind c k s = (Throw msg, s').
Proof. unfold bind. intros ->. reflexivity. Qed.

Lemma exprForIndexPathInTree_None (t : Tree) (p : list nat) (F : Forest) :
  walk (heap F) (tree_root t) p = None ->
  exprForIndexPathInTree t p F = (Throw invalid_index_path, F).
Proof. unfold exprForIndexPathInTree. intros ->. reflexivity. Qed.

Lemma requireSExpr_true (e : Expr) (F : Forest) :
  isSExpr (heap F) e = true -> requireSExpr e F = (Normal tt, F).
Proof. unfold requireSExpr. intros ->. reflexivity. Qed.

Lemma walk_parent (h : list Node) (r : Expr) (p : list nat) (i : nat) (e : Expr) :
  walk h r (p ++ [i]) = Some e ->
  exists a, walk h r p = Some (Ref a)
            /\ isSExpr h (Ref a) = true
            /\ childAtIndex h (Ref a) i = Some e.
Proof.
  intros (a & cs & Hp & Ha & Hi)%walk_snoc_Some. exists a.
  split; [exact Hp|]. split; simpl; rewrite Ha; [reflexivity | exact Hi].
Qed.

(** Every run of [moveExprInTree] is one of five: the guard on the length
    of the destination path, a location that does not resolve, the
    destination being the source or the root of its tree, the move of a
    root, and the move of a child. *)
Lemma moveExprInTree_cases (F : Forest) (src dst : TreeIndexPath) :
  let run := moveExprInTree src dst F in
  let ws := walk (heap F) (tree_root (tree src)) (path src) in
  let wd := walk (heap F) (tree_root (tree dst)) (path dst) in
  (length (path dst) < 2 /\ run = (Normal tt, F))
  \/ (2 <= length (path dst) /\ (ws = None \/ wd = None)
      /\ run = (Throw invalid_index_path, F))
  \/ (exists s d,
        2 <= length (path dst) /\ ws = Some s /\ wd = Some d
        /\ (d = s \/ d = tree_root (tree dst))
        /\ run = (Normal tt, F))
  \/ (exists d dp j pd,
        path dst = dp ++ [j] /\ dp <> []
        /\ ws = Some (tree_root (tree src))
        /\ walk (heap F) (tree_root (tree dst)) dp = Some (Ref pd)
        /\ childAtIndex (heap F) (Ref pd) j = Some d
        /\ d <> tree_root (tree src) /\ d <> tree_root (tree dst)
        /\ run = (Normal tt,
                  promote d (setSlot pd j (tree_root (tree src))
                               (removeTree (tree src) F).2)))
  \/ (exists s d dp j pd sp i ps,
        path dst = dp ++ [j] /\ dp <> [] /\ path src = sp ++ [i]
        /\ walk (heap F) (tree_root (tree src)) sp = Some (Ref ps)
        /\ childAtIndex (heap F) (Ref ps) i = Some s
        /\ walk (heap F) (tree_root (tree dst)) dp = Some (Ref pd)
        /\ childAtIndex (heap F) (Ref pd) j = Some d
        /\ d <> s /\ d <> tree_root (tree dst) /\ s <> tree_root (tree src)
        /\ run = (Normal tt, promote d (setSlot pd j s (setSlot ps i hole F)))).
Proof.
  destruct src as [st spath], dst as [dt dpath].
  intros run ws wd. subst run ws wd. unfold moveExprInTree. cbn [tree path].
  destruct (length dpath <? 2)%nat eqn:Hlen.
  { left. apply Nat.ltb_lt in Hlen. split; [exact Hlen | reflexivity]. }
  apply Nat.ltb_ge in Hlen. right.
  destruct (walk (heap F) (tree_root st) spath) as [s|] eqn:Hs.
  2:{ left. split; [exact Hlen|]. split; [left; reflexivity|].
      apply bind_run_Throw, exprForIndexPathInTree_None, Hs. }
  rewrite (bind_run_Normal _ _ _ _ _ (exprForIndexPathInTree_Some _ _ _ _ Hs)).
  destruct (walk (heap F) (tree_root dt) dpath) as [d|] eqn:Hd.
  2:{ left. split; [exact Hlen|]. split; [right; reflexivity|].
      apply bind_run_Throw, exprForIndexPathInTree_None, Hd. }
  rewrite (bind_run_Normal _ _ _ _ _ (exprForIndexPathInTree_Some _ _ _ _ Hd)).
  right.
  destruct (nonempty_snoc dpath) as (dp & j & ->).
  { intros ->. simpl in Hlen. lia. }
  assert (dp <> []) as Hdp.
  { intros ->. simpl in Hlen. lia. }
  destruct (walk_parent _ _ _ _ _ Hd) as (pd & Hpd & Hpds & Hcd).
  rewrite slice_0_m1_snoc, at_m1_snoc.
  rewrite (bind_run_Normal _ _ _ _ _ (exprForIndexPathInTree_Some _ _ _ _ Hpd)).
  rewrite (bind_run_Normal _ _ _ _ _ (requireSExpr_true _ _ Hpds)).
  destruct (decide (d = s)) as [Hds|Hds].
  { left. exists s, d. rewrite (bool_decide_eq_true_2 _ Hds). cbn [orb].
    repeat split; auto. }
  rewrite (bool_decide_eq_false_2 _ Hds). cbn [orb].
  destruct (decide (d = tree_root dt)) as [Hdr|Hdr].
  { left. exists s, d. rewrite (bool_decide_eq_true_2 _ Hdr).
    repeat split; auto. }
  rewrite (bool_decide_eq_false_2 _ Hdr). right.
  destruct (decide (s = tree_root st)) as [Hsr|Hsr].
  - left. subst s. exists d, dp, j, pd.
    rewrite bool_decide_eq_true_2 by reflexivity.
    repeat (split; [first [assumption | reflexivity]|]).
    unfold bind, removeTree, setChild, modify, promote, setSlot, newTree, ret.
    simpl. destruct (isHole d); reflexivity.
  - right. rewrite (bool_decide_eq_false_2 _ Hsr).
    destruct (nonempty_snoc spath) as (sp & i & ->).
    { intros ->. simpl in Hs. congruence. }
    destruct (walk_parent _ _ _ _ _ Hs) as (ps & Hps & Hpss & Hcs).
    exists s, d, dp, j, pd, sp, i, ps.
    repeat (split; [first [assumption | reflexivity]|]).
    rewrite slice_0_m1_snoc, at_m1_snoc.
    unfold bind at 1.
    rewrite (bind_run_Normal _ _ _ _ _ (exprForIndexPathInTree_Some _ _ _ _ Hps)).
    rewrite (bind_run_Normal _ _ _ _ _ (requireSExpr_true _ _ Hpss)).
    unfold bind, setChild, modify, promote, setSlot, newTree, ret.
    simpl. destruct (isHole d); reflexivity.
Qed.

(** X11: [moveExprInTree] fails as a whole or not at all.  When it throws,
    the forest is what it was, the message is that of an invalid index
    path, the destination path has length at least 2 and one of the two
    locations does not resolve; and under these conditions it does throw. *)
Theorem moveExprInTree_failure (F : Forest) (src dst : TreeIndexPath) :
  (forall msg F',
     moveExprInTree src dst F = (Throw msg, F') ->
     F' = F /\ msg = invalid_index_path /\ 2 <= length (path dst)
     /\ (walk (heap F) (tree_root (tree src)) (path src) = None
         \/ walk (heap F) (tree_root (tree dst)) (path dst) = None))
  /\ (2 <= length (path dst) ->
      walk (heap F) (tree_root (tree src)) (path src) = None
      \/ walk (heap F) (tree_root (tree dst)) (path dst) = None ->
      moveExprInTree src dst F = (Throw invalid_index_path, F)).
Proof.
  pose proof (moveExprInTree_cases F src dst) as Hcases. cbv zeta in Hcases.
  split.
  - intros msg F' Hrun. rewrite Hrun in Hcases.
    destruct Hcases as [[_ H]|[(Hlen & Hw & H)|[(s & d & H)|[(d & dp & j & pd & H)|H]]]].
    + discriminate.
    + injection H as -> ->. auto.
    + destruct H as (_ & _ & _ & _ & H). discriminate.
    + destruct H as (_ & _ & _ & _ & _ & _ & _ & H). discriminate.
    + destruct H as (s & d & dp & j & pd & sp & i & ps & H).
      destruct H as (_ & _ & _ & _ & _ & _ & _ & _ & _ & _ & H). discriminate.
  - intros Hlen Hw.
    destruct Hcases as [[Hlt _]|[(_ & _ & H)|[(s & d & H)|[(d & dp & j & pd & H)|H]]]].
    + lia.
    + exact H.
    + destruct H as (_ & Hs & Hd & _). destruct Hw; congruence.
    + destruct H as (Hp & _ & Hs & Hpd & Hcd & _).
      assert (walk (heap F) (tree_root (tree dst)) (path dst) = Some d).
      { rewrite Hp, walk_snoc, Hpd. exact Hcd. }
      destruct Hw; congruence.
    + destruct H as (s & d & dp & j & pd & sp & i & ps & H).
      destruct H as (Hp & _ & Hq & Hps & Hcs & Hpd & Hcd & _).
      assert (walk (heap F) (tree_root (tree dst)) (path dst) = Some d).
      { rewrite Hp, walk_snoc, Hpd. exact Hcd. }
      assert (walk (heap F) (tree_root (tree src)) (path src) = Some s).
      { rewrite Hq, walk_snoc, Hps. exact Hcs. }
      destruct Hw; congruence.
Qed.

(** X11 on the forest of the trees [(f x)] and [(g (h _))]: the child 0 of
    [g] is a leaf, so the destination [0,0] does not resolve. *)
Lemma moveExprInTree_failure_witness :
  2 <= length [0; 0]
  /\ walk (heap forestA) (Ref 3) [0; 0] = None
  /\ moveExprInTree {| tree := tree1; path := [1] |}
                    {| tree := tree2; path := [0; 0] |} forestA
     = (Throw invalid_index_path, forestA).
Proof.
  split; [simpl; lia|]. split; [reflexivity|].
  apply (proj2 (moveExprInTree_failure forestA
                  {| tree := tree1; path := [1] |}
                  {| tree := tree2; path := [0; 0] |})).
  - simpl. lia.
  - right. reflexivity.
Defined.

(** Every run of [orphanExpr] is one of four: the location does not
    resolve; the path is empty and the root is no S-expression; the path is
    empty and the root is an S-expression; the location is a child slot. *)
Lemma orphanExpr_cases (F : Forest) (location : TreeIndexPath) :
  let run := orphanExpr location F in
  let w := walk (heap F) (tree_root (tree location)) (path location) in
  (w = None /\ run = (Throw invalid_index_path, F))
  \/ (path location = []
      /\ isSExpr (heap F) (tree_root (tree location)) = false
      /\ run = (Normal tt, F))
  \/ (path location = []
      /\ isSExpr (heap F) (tree_root (tree location)) = true
      /\ run = (Normal tt, promote (tree_root (tree location)) F))
  \/ (exists p i a e,
        path location = p ++ [i]
        /\ walk (heap F) (tree_root (tree location)) p = Some (Ref a)
        /\ childAtIndex (heap F) (Ref a) i = Some e
        /\ run = (Normal tt, promote e (setSlot a i hole F))).
Proof.
  destruct location as [t p]. intros run w. subst run w.
  unfold orphanExpr. cbn [tree path].
  destruct (walk (heap F) (tree_root t) p) as [e|] eqn:Hw.
  2:{ left. split; [reflexivity|].
      apply bind_run_Throw, exprForIndexPathInTree_None, Hw. }
  right.
  rewrite (bind_run_Normal _ _ _ _ _ (exprForIndexPathInTree_Some _ _ _ _ Hw)).
  destruct p as [|i0 p0].
  - simpl in Hw. injection Hw as <-.
    unfold bind, exprForIndexPathInTree, gets. simpl.
    destruct (isSExpr (heap F) (tree_root t)) eqn:HS; simpl.
    + right. left. split; [reflexivity|]. split; [reflexivity|].
      unfold setChild, modify, promote, newTree, ret. simpl.
      assert (setChildAtIndex (heap F) (tree_root t) (at_m1 []) hole = heap F) as ->.
      { unfold setChildAtIndex. destruct (tree_root t); reflexivity. }
      destruct F; simpl. destruct (isHole (tree_root t)); reflexivity.
    + left. auto.
  - right. right.
    destruct (nonempty_snoc (i0 :: p0)) as (p & i & Hp); [discriminate|].
    rewrite Hp in *. clear Hp i0 p0.
    destruct (walk_parent _ _ _ _ _ Hw) as (a & Hpa & HS & Hc).
    exists p, i, a, e. split; [reflexivity|]. split; [exact Hpa|]. split; [exact Hc|].
    rewrite slice_0_m1_snoc, at_m1_snoc.
    rewrite (bind_run_Normal _ _ _ _ _ (exprForIndexPathInTree_Some _ _ _ _ Hpa)).
    unfold bind, gets. rewrite HS. simpl.
    unfold setChild, modify, promote, setSlot, newTree, ret. simpl.
    destruct (isHole e); reflexivity.
Qed.

(** X12: [orphanExpr] throws exactly when its location does not resolve,
    and then the forest is what it was and the message is that of an
    invalid index path. *)
Theorem orphanExpr_failure (F : Forest) (location : TreeIndexPath) :
  (forall msg F',
     orphanExpr location F = (Throw msg, F') ->
     F' = F /\ msg = invalid_index_path
     /\ walk (heap F) (tree_root (tree location)) (path location) = None)
  /\ (walk (heap F) (tree_root (tree location)) (path location) = None ->
      orphanExpr location F = (Throw invalid_index_path, F)).
Proof.
  pose proof (orphanExpr_cases F location) as Hcases. cbv zeta in Hcases.
  split.
  - intros msg F' Hrun. rewrite Hrun in Hcases.
    destruct Hcases as [[Hw H]|[(_ & _ & H)|[(_ & _ & H)|(p & i & a & e & H)]]].
    + injection H as -> ->. auto.
    + discriminate.
    + discriminate.
    + destruct H as (_ & _ & _ & H). discriminate.
  - intros Hw.
    destruct Hcases as [[_ H]|[(Hp & _ & _)|[(Hp & _ & _)|(p & i & a & e & H)]]].
    + exact H.
    + rewrite Hp in Hw. discriminate.
    + rewrite Hp in Hw. discriminate.
    + destruct H as (Hp & Hpa & Hc & _).
      assert (walk (heap F) (tree_root (tree location)) (path location) = Some e).
      { rewrite Hp, walk_snoc, Hpa. exact Hc. }
      congruence.
Qed.

(** X12 on the forest of the trees [(f x)] and [(g (h _))]: [(f x)] has no
    child 2. *)
Lemma orphanExpr_failure_witness :
  walk (heap forestA) (Ref 0) [2] = None
  /\ orphanExpr {| tree := tree1; path := [2] |} forestA
     = (Throw invalid_index_path, forestA).
Proof.
  split; [reflexivity|].
  apply (proj2 (orphanExpr_failure forestA {| tree := tree1; path := [2] |})).
  reflexivity.
Defined.

(** ** Single ownership is kept *)

Lemma childRefs_setSlot (F : Forest) (a : addr) (i : nat) (old new : Expr) :
  childAtIndex (heap F) (Ref a) i = Some old ->
  childRefs (heap (setSlot a i new F)) ++ omap refAddr [old]
  ≡ₚ childRefs (heap F) ++ omap refAddr [new].
Proof.
  intros (a' & cs & [= <-] & Ha & Hi)%childAtIndex_Some.
  unfold setSlot, setChild, modify, setChildAtIndex. cbn [snd heap]. rewrite Ha.
  destruct F as [h ts n]. cbn [heap] in *.
  apply list_elem_of_split_length in Ha as (h1 & h2 & -> & ->).
  apply list_elem_of_split_length in Hi as (c1 & c2 & -> & ->).
  rewrite !insert_app_r_alt, !Nat.sub_diag by lia. cbn [insert list_insert].
  unfold childRefs. rewrite !bind_app, !bind_cons. cbn [nodeRefs].
  change (new :: c2) with ([new] ++ c2).
  change (old :: c2) with ([old] ++ c2).
  rewrite !omap_app.
  generalize (omap refAddr [new]) (omap refAddr [old]). intros N O.
  solve_Permutation.
Qed.

Lemma rootRefs_promote (d : Expr) (F : Forest) :
  rootRefs (trees_ (promote d F)) = rootRefs (trees_ F) ++ omap refAddr [d].
Proof.
  unfold promote, isHole. destruct d as [|a]; simpl.
  - rewrite app_nil_r. reflexivity.
  - unfold rootRefs. rewrite omap_app. reflexivity.
Qed.

Lemma heap_promote (d : Expr) (F : Forest) : heap (promote d F) = heap F.
Proof. unfold promote. destruct (isHole d); reflexivity. Qed.

Lemma ids_promote (d : Expr) (F : Forest) :
  Forall (fun t => tree_id t ∈ idsUpTo (nextID F)) (trees_ F) ->
  Forall (fun t => tree_id t ∈ idsUpTo (nextID (promote d F))) (trees_ (promote d F)).
Proof.
  intros Hids. unfold promote. destruct (isHole d); [exact Hids|]. simpl.
  apply Forall_app. split.
  - eapply Forall_impl; [exact Hids|]. intros t. apply idsUpTo_mono.
  - apply Forall_cons_2; [|apply Forall_nil_2]. simpl. rewrite idsUpTo_succ.
    apply elem_of_app. right. apply list_elem_of_here.
Qed.

Lemma submseteq_NoDup {A} (k l : list A) : k ⊆+ l -> NoDup l -> NoDup k.
Proof.
  intros [k' Hk]%submseteq_Permutation Hnd. rewrite Hk in Hnd.
  apply NoDup_app in Hnd. tauto.
Qed.

(** X13: [orphanExpr] on a child location keeps single ownership: when it
    returns on a well-formed forest and a non-empty path, the forest is
    well-formed again. *)
Theorem orphanExpr_preserves_wf (F F' : Forest) (location : TreeIndexPath) :
  wf F -> path location <> [] ->
  orphanExpr location F = (Normal tt, F') ->
  wf F'.
Proof.
  intros [Hnd Hids] Hpath Hrun.
  pose proof (orphanExpr_cases F location) as Hcases. cbv zeta in Hcases.
  rewrite Hrun in Hcases.
  destruct Hcases as [[_ H]|[(Hp & _)|[(Hp & _)|(p & i & a & e & H)]]];
    [discriminate | contradiction | contradiction |].
  destruct H as (_ & _ & Hc & HF').
  apply (f_equal snd) in HF'. cbn [snd] in HF'. subst F'. split.
  - rewrite rootRefs_promote, heap_promote.
    pose proof (childRefs_setSlot F a i e hole Hc) as Hperm.
    simpl (omap refAddr [hole]) in Hperm. rewrite app_nil_r in Hperm.
    rewrite <- Hperm in Hnd.
    eapply NoDup_Permutation_proper; [|exact Hnd].
    generalize (omap refAddr [e]) (childRefs (heap (setSlot a i hole F))).
    intros O C. change (trees_ (setSlot a i hole F)) with (trees_ F).
    solve_Permutation.
  - apply ids_promote. exact Hids.
Qed.

(** X13 on the forest of the trees [(f x)] and [(g (h _))], orphaning [x]. *)
Lemma orphanExpr_preserves_wf_witness :
  wf forestA
  /\ wf (orphanExpr {| tree := tree1; path := [1] |} forestA).2.
Proof.
  assert (wf forestA) as Hwf.
  { split.
    - apply (bool_decide_unpack _). vm_compute. exact I.
    - apply Forall_cons_2; [vm_compute; apply list_elem_of_here|].
      apply Forall_cons_2; [vm_compute; apply list_elem_of_further, list_elem_of_here|].
      apply Forall_nil_2. }
  split; [exact Hwf|].
  apply (orphanExpr_preserves_wf forestA _ {| tree := tree1; path := [1] |} Hwf).
  - discriminate.
  - reflexivity.
Defined.

(** X14: [moveExprInTree] keeps single ownership: when it returns on a
    well-formed forest, with a source tree that is in the forest, the
    forest is well-formed again, whether or not one location lies inside
    the other. *)
Theorem moveExprInTree_preserves_wf (F F' : Forest) (src dst : TreeIndexPath) :
  wf F -> tree src ∈ trees_ F ->
  moveExprInTree src dst F = (Normal tt, F') ->
  wf F'.
Proof.
  intros Hwf Hsrc Hrun. pose proof Hwf as [Hnd Hids].
  pose proof (moveExprInTree_cases F src dst) as Hcases. cbv zeta in Hcases.
  rewrite Hrun in Hcases.
  destruct Hcases as [[_ H]|[(_ & _ & H)|[(s & d & H)|[(d & dp & j & pd & H)|H]]]].
  - injection H as ->. exact Hwf.
  - discriminate.
  - destruct H as (_ & _ & _ & _ & [= ->]). exact Hwf.
  - (* the move of a root *)
    destruct H as (_ & _ & _ & _ & Hcd & _ & _ & HF').
    apply (f_equal snd) in HF'. cbn [snd] in HF'. subst F'.
    remember (removeTree (tree src) F).2 as F1 eqn:HF1.
    assert (heap F1 = heap F) as Hh1 by (subst F1; reflexivity).
    assert (trees_ F1
            = filter (fun t => tree_id t <> tree_id (tree src)) (trees_ F)) as Ht1
      by (subst F1; reflexivity).
    assert (nextID F1 = nextID F) as Hn1 by (subst F1; reflexivity).
    clear HF1. rewrite <- Hh1 in Hcd.
    split.
    + rewrite rootRefs_promote, heap_promote.
      pose proof (childRefs_setSlot F1 pd j d (tree_root (tree src)) Hcd) as Hperm.
      rewrite Hh1 in Hperm.
      change (trees_ (setSlot pd j (tree_root (tree src)) F1)) with (trees_ F1).
      assert (rootRefs (trees_ F1)
              ++ rootRefs (filter (fun t => ~ tree_id t <> tree_id (tree src)) (trees_ F))
              ≡ₚ rootRefs (trees_ F)) as Hroots.
      { rewrite Ht1. unfold rootRefs. rewrite <- omap_app.
        apply omap_Permutation, filter_app_complement. }
      assert (omap refAddr [tree_root (tree src)]
              ⊆+ rootRefs (filter (fun t => ~ tree_id t <> tree_id (tree src)) (trees_ F)))
        as Hsub.
      { destruct (tree_root (tree src)) as [|r] eqn:Hr; simpl.
        - apply submseteq_nil_l.
        - apply singleton_submseteq_l. eapply rootRefs_elem; [|exact Hr].
          apply list_elem_of_filter. split; [|exact Hsrc]. intros H. apply H. reflexivity. }
      rewrite <- Hroots in Hnd.
      eapply submseteq_NoDup; [|exact Hnd].
      transitivity (rootRefs (trees_ F1)
                    ++ (childRefs (heap F) ++ omap refAddr [tree_root (tree src)])).
      * rewrite <- Hperm.
        generalize (omap refAddr [d])
                   (childRefs (heap (setSlot pd j (tree_root (tree src)) F1)))
                   (rootRefs (trees_ F1)).
        intros O C R. solve_submseteq.
      * rewrite <- (assoc_L (++)). apply submseteq_skips_l.
        rewrite (comm (++) _ (childRefs (heap F))). apply submseteq_skips_l. exact Hsub.
    + apply ids_promote.
      change (Forall (fun t => tree_id t ∈ idsUpTo (nextID F1)) (trees_ F1)).
      rewrite Hn1, Ht1. rewrite Forall_forall in Hids |- *.
      intros t [_ Ht]%list_elem_of_filter. auto.
  - (* the move of a child *)
    destruct H as (s & d & dp & j & pd & sp & i & ps & H).
    destruct H as (_ & _ & _ & _ & Hcs & _ & Hcd & Hds & _ & _ & HF').
    apply (f_equal snd) in HF'. cbn [snd] in HF'. subst F'.
    pose proof (childRefs_setSlot F ps i s hole Hcs) as Hperm1.
    simpl (omap refAddr [hole]) in Hperm1. rewrite app_nil_r in Hperm1.
    assert (childAtIndex (heap (setSlot ps i hole F)) (Ref pd) j = Some d) as Hcd1.
    { unfold setSlot, setChild, modify. cbn [snd heap].
      rewrite childAtIndex_set_other; [exact Hcd|].
      intros [[= ->] ->]. congruence. }
    remember (setSlot ps i hole F) as F1 eqn:HF1.
    assert (trees_ F1 = trees_ F) as Ht1 by (subst F1; reflexivity).
    assert (nextID F1 = nextID F) as Hn1 by (subst F1; reflexivity).
    clear HF1.
    split.
    + rewrite rootRefs_promote, heap_promote.
      pose proof (childRefs_setSlot F1 pd j d s Hcd1) as Hperm2.
      rewrite <- Hperm1, <- Hperm2 in Hnd.
      change (trees_ (setSlot pd j s F1)) with (trees_ F1). rewrite Ht1.
      eapply NoDup_Permutation_proper; [|exact Hnd].
      generalize (omap refAddr [d]) (childRefs (heap (setSlot pd j s F1)))
                 (rootRefs (trees_ F)).
      intros O C R. solve_Permutation.
    + apply ids_promote.
      change (Forall (fun t => tree_id t ∈ idsUpTo (nextID F1)) (trees_ F1)).
      rewrite Hn1, Ht1. exact Hids.
Qed.

(** X14 on the tree [(g (h (f (k y))))], moving [(k y)] onto its parent
    [(f (k y))]. *)
Lemma moveExprInTree_preserves_wf_witness :
  wf forestB
  /\ wf (moveExprInTree {| tree := tree1; path := [1; 1; 1] |}
                        {| tree := tree1; path := [1; 1] |} forestB).2.
Proof.
  assert (wf forestB) as Hwf.
  { split.
    - apply (bool_decide_unpack _). vm_compute. exact I.
    - apply Forall_cons_2; [vm_compute; apply list_elem_of_here|].
      apply Forall_nil_2. }
  split; [exact Hwf|].
  apply (moveExprInTree_preserves_wf forestB _
           {| tree := tree1; path := [1; 1; 1] |}
           {| tree := tree1; path := [1; 1] |} Hwf).
  - apply list_elem_of_here.
  - reflexivity.
Defined.

(** ** Resolving paths *)

(** X15: [exprForIndexPathInTree] never changes the forest, resolves the
    empty path to the root, and resolves a concatenated path [p ++ q] as
    the path [q] from the expression that [p] resolves to, failing when
    either does. *)
Theorem exprForIndexPathInTree_app (t : Tree) (p q : list nat) (F : Forest) :
  (exprForIndexPathInTree t p F).2 = F
  /\ exprForIndexPathInTree t [] F = (Normal (tree_root t), F)
  /\ exprForIndexPathInTree t (p ++ q) F
     = bind (exprForIndexPathInTree t p)
            (fun e => exprForIndexPathInTree
                        {| tree_id := tree_id t; tree_root := e;
                           tree_location := tree_location t |} q) F.
Proof.
  unfold bind, exprForIndexPathInTree. rewrite walk_app. cbn [tree_root].
  destruct (walk (heap F) (tree_root t) p) as [e|]; simpl; auto.
Qed.

(** ** What a move and an orphaning leave behind *)

Lemma treeByID_promote (d : Expr) (F : Forest) :
  Forall (fun t => tree_id t ∈ idsUpTo (nextID F)) (trees_ F) ->
  d <> hole ->
  treeByID (pretty (nextID F + 1)%N) (promote d F)
  = Some {| tree_id := pretty (nextID F + 1)%N; tree_root := d;
            tree_location := None |}
  /\ nextID (promote d F) = (nextID F + 1)%N.
Proof.
  intros Hids Hd. unfold promote, isHole.
  rewrite bool_decide_eq_false_2 by exact Hd. split; [|reflexivity].
  unfold treeByID. simpl.
  pose proof (find_snoc_fresh (trees_ F)
                {| tree_id := pretty (nextID F + 1)%N; tree_root := d;
                   tree_location := None |}) as Hfind.
  cbn [tree_id] in Hfind. apply Hfind.
  intros t Ht. apply ids_handed_out_fresh; assumption.
Qed.

(** X16: when [moveExprInTree] replaces a destination that is not a hole,
    the displaced expression becomes the root of a new tree, found under
    the next id; when the destination is a hole, no id is used and no tree
    is added. *)
Theorem moveExprInTree_promotes_destination (F : Forest) (src dst : TreeIndexPath)
    (s d : Expr) :
  Forall (fun t => tree_id t ∈ idsUpTo (nextID F)) (trees_ F) ->
  2 <= length (path dst) ->
  walk (heap F) (tree_root (tree src)) (path src) = Some s ->
  walk (heap F) (tree_root (tree dst)) (path dst) = Some d ->
  d <> s -> d <> tree_root (tree dst) ->
  exists F',
    moveExprInTree src dst F = (Normal tt, F')
    /\ (d <> hole ->
        treeByID (pretty (nextID F + 1)%N) F'
        = Some {| tree_id := pretty (nextID F + 1)%N; tree_root := d;
                  tree_location := None |}
        /\ nextID F' = (nextID F + 1)%N)
    /\ (d = hole ->
        nextID F' = nextID F /\ trees_ F' `sublist_of` trees_ F).
Proof.
  intros Hids Hlen Hs Hd Hds Hdr.
  pose proof (moveExprInTree_cases F src dst) as Hcases. cbv zeta in Hcases.
  destruct Hcases as [[Hlt _]|[(_ & Hw & _)|[(s' & d' & H)|[(d' & dp & j & pd & H)|H]]]].
  - lia.
  - destruct Hw; congruence.
  - destruct H as (_ & Hs' & Hd' & Hor & _).
    rewrite Hs in Hs'. rewrite Hd in Hd'. injection Hs' as <-. injection Hd' as <-.
    tauto.
  - destruct H as (Hp & _ & _ & Hpd & Hcd & _ & _ & Hrun).
    assert (d' = d) as ->.
    { assert (walk (heap F) (tree_root (tree dst)) (path dst) = Some d') as Hd'
        by (rewrite Hp, walk_snoc, Hpd; exact Hcd).
      congruence. }
    eexists. split; [exact Hrun|].
    remember (setSlot pd j (tree_root (tree src)) (removeTree (tree src) F).2) as F1 eqn:HF1.
    assert (trees_ F1 = filter (fun t => tree_id t <> tree_id (tree src)) (trees_ F))
      as Ht1 by (subst F1; reflexivity).
    assert (nextID F1 = nextID F) as Hn1 by (subst F1; reflexivity).
    clear HF1.
    assert (Forall (fun t => tree_id t ∈ idsUpTo (nextID F1)) (trees_ F1)) as Hids1.
    { rewrite Hn1, Ht1. rewrite Forall_forall in Hids |- *.
      intros t [_ Ht]%list_elem_of_filter. auto. }
    split.
    + intros Hnh. rewrite <- Hn1. apply treeByID_promote; assumption.
    + intros ->. unfold promote. simpl. rewrite Hn1, Ht1.
      split; [reflexivity | apply sublist_filter].
  - destruct H as (s' & d' & dp & j & pd & sp & i & ps & H).
    destruct H as (Hp & _ & _ & _ & _ & Hpd & Hcd & _ & _ & _ & Hrun).
    assert (d' = d) as ->.
    { assert (walk (heap F) (tree_root (tree dst)) (path dst) = Some d') as Hd'
        by (rewrite Hp, walk_snoc, Hpd; exact Hcd).
      congruence. }
    eexists. split; [exact Hrun|].
    remember (setSlot pd j s' (setSlot ps i hole F)) as F1 eqn:HF1.
    assert (trees_ F1 = trees_ F) as Ht1 by (subst F1; reflexivity).
    assert (nextID F1 = nextID F) as Hn1 by (subst F1; reflexivity).
    clear HF1.
    split.
    + intros Hnh. rewrite <- Hn1. apply treeByID_promote; [|exact Hnh].
      rewrite Hn1, Ht1. exact Hids.
    + intros ->. unfold promote. simpl. rewrite Hn1, Ht1. split; reflexivity.
Qed.

(** X16 on the forest of the trees [(f x)] and [(g (h _))], moving [x] onto
    [h]. *)
Lemma moveExprInTree_promotes_destination_witness :
  exists F',
    moveExprInTree {| tree := tree1; path := [1] |}
                   {| tree := tree2; path := [1; 0] |} forestA = (Normal tt, F')
    /\ treeByID "3" F'
       = Some {| tree_id := "3"; tree_root := Ref 6; tree_location := None |}.
Proof.
  destruct (moveExprInTree_promotes_destination forestA
              {| tree := tree1; path := [1] |}
              {| tree := tree2; path := [1; 0] |} (Ref 2) (Ref 6))
    as (F' & Hrun & Hnew & _).
  - apply Forall_cons_2; [vm_compute; apply list_elem_of_here|].
    apply Forall_cons_2; [vm_compute; apply list_elem_of_further, list_elem_of_here|].
    apply Forall_nil_2.
  - simpl. lia.
  - reflexivity.
  - reflexivity.
  - discriminate.
  - discriminate.
  - exists F'. split; [exact Hrun|]. apply Hnew. discriminate.
Defined.

(** X17: in a well-formed forest, orphaning the expression at a child
    location of a tree of the forest leaves a hole at that location, keeps
    what every path resolves to from the orphaned expression and from the
    roots of the other trees, and, when the expression is not a hole, makes
    it the root of a new tree found under the next id. *)
Theorem orphanExpr_subtree_intact (F : Forest) (t : Tree) (p : list nat)
    (i : nat) (e : Expr) :
  wf F -> t ∈ trees_ F ->
  walk (heap F) (tree_root t) (p ++ [i]) = Some e ->
  exists F',
    orphanExpr {| tree := t; path := p ++ [i] |} F = (Normal tt, F')
    /\ walk (heap F') (tree_root t) (p ++ [i]) = Some hole
    /\ (forall q, walk (heap F') e q = walk (heap F) e q)
    /\ (forall t' q, t' ∈ trees_ F -> tree_root t' <> tree_root t ->
          walk (heap F') (tree_root t') q = walk (heap F) (tree_root t') q)
    /\ (e <> hole ->
        treeByID (pretty (nextID F + 1)%N) F'
        = Some {| tree_id := pretty (nextID F + 1)%N; tree_root := e;
                  tree_location := None |}).
Proof.
  intros Hwf Ht Hw.
  destruct (orphanExpr_detaches F t p i e Hwf Ht Hw) as (F' & Hrun & Hhole & _).
  exists F'. split; [exact Hrun|]. split; [exact Hhole|].
  pose proof (orphanExpr_cases F {| tree := t; path := p ++ [i] |}) as Hcases.
  cbv zeta in Hcases. cbn [tree path] in Hcases. rewrite Hrun in Hcases.
  destruct Hcases as [[_ H]|[(Hp & _)|[(Hp & _)|(p' & i' & a & e' & H)]]];
    [discriminate | destruct p; discriminate | destruct p; discriminate |].
  destruct H as (Hp & Hpa & Hc & HF').
  apply app_inj_tail in Hp as [<- <-].
  assert (e' = e) as ->.
  { assert (walk (heap F) (tree_root t) (p ++ [i]) = Some e') as Hw'
      by (rewrite walk_snoc, Hpa; exact Hc).
    congruence. }
  apply (f_equal snd) in HF'. cbn [snd] in HF'. subst F'.
  rewrite heap_promote.
  change (heap (setSlot a i hole F))
    with (setChildAtIndex (heap F) (Ref a) (Some i) hole).
  pose proof Hwf as [Hnd Hids].
  assert (NoDup (childRefs (heap F))) as Hndc by (apply NoDup_app in Hnd; tauto).
  destruct (tree_root t) as [|r] eqn:Hr.
  { apply walk_hole in Hpa. subst p. discriminate. }
  assert (r ∉ childRefs (heap F)) as Hrc by exact (wf_root_not_child F t r Hwf Ht Hr).
  split; [|split].
  - intros q. apply walk_set_frame. intros (q1 & q2 & -> & Hq1).
    destruct e as [|b].
    + apply walk_hole in Hq1 as Hq. subst q1. discriminate.
    + assert (walk (heap F) (Ref r) ((p ++ [i]) ++ q1) = Some (Ref a)) as Hlong.
      { rewrite walk_app, Hw. exact Hq1. }
      destruct (walk_inj _ r r _ _ a Hndc Hrc Hrc Hpa Hlong) as [_ Heq].
      apply (f_equal length) in Heq. rewrite !length_app in Heq. simpl in Heq. lia.
  - intros t' q Ht' Hne. apply walk_set_frame. intros Hon.
    destruct (tree_root t') as [|r'] eqn:Hr'.
    + destruct Hon as (q1 & q2 & -> & Hq1).
      apply walk_hole in Hq1 as Hq. subst q1. discriminate.
    + assert (r' ∉ childRefs (heap F)) as Hrc'
        by exact (wf_root_not_child F t' r' Hwf Ht' Hr').
      destruct (onPath_other_prefix _ r r' p q a i Hndc Hrc Hrc' Hpa Hon) as [-> _].
      congruence.
  - intros Hne.
    apply (treeByID_promote e (setSlot a i hole F)); assumption.
Qed.

(** X17 on the forest of the trees [(f x)] and [(g (h _))], orphaning
    [(h _)]. *)
Lemma orphanExpr_subtree_intact_witness :
  exists F',
    orphanExpr {| tree := tree2; path := [] ++ [1] |} forestA = (Normal tt, F')
    /\ walk (heap F') (Ref 3) [1] = Some hole
    /\ walk (heap F') (Ref 5) [0] = Some (Ref 6)
    /\ treeByID "3" F'
       = Some {| tree_id := "3"; tree_root := Ref 5; tree_location := None |}.
Proof.
  assert (wf forestA) as Hwf.
  { split.
    - apply (bool_decide_unpack _). vm_compute. exact I.
    - apply Forall_cons_2; [vm_compute; apply list_elem_of_here|].
      apply Forall_cons_2; [vm_compute; apply list_elem_of_further, list_elem_of_here|].
      apply Forall_nil_2. }
  destruct (orphanExpr_subtree_intact forestA tree2 [] 1 (Ref 5) Hwf)
    as (F' & Hrun & Hhole & Hsub & _ & Hnew).
  - apply list_elem_of_further, list_elem_of_here.
  - reflexivity.
  - exists F'. split; [exact Hrun|]. split; [exact Hhole|].
    split; [rewrite Hsub; reflexivity|]. apply Hnew. discriminate.
Defined.
(* ===================================================================== *)
(** * Properties of the evaluator *)
(* ===================================================================== *)

Import Evaluator.

Section EvaluatorProperties.
Context {native : Type}.
Context (runNative : native ->
                     (Value native -> list (Value native) -> E native (Value native)) ->
                     list (Value native) -> E native (Value native)).

Lemma bindE_Normal {A B} (c : E native A) (k : A -> E native B)
    (st st' : State native) (b : B) :
  bindE c k st = Done (Normal b) st' ->
  exists a st1, c st = Done (Normal a) st1 /\ k a st1 = Done (Normal b) st'.
Proof.
  unfold bindE. destruct (c st) as [[a|msg] st1|]; try discriminate. eauto.
Qed.

(** C10: whenever [#eval] returns normally, the [env] field of the
    evaluator is what it was when the evaluation began.  The public [eval]
    is [#eval] with the given environment, so this holds for it as well. *)
Theorem eval_private_restores_env (fuel : nat) (expr : Expr)
    (env_ extendEnv : option Environment) (st st' : State native) (v : Value native) :
  eval_private runNative fuel expr env_ extendEnv st = Done (Normal v) st' ->
  env st' = env st.
Proof.
  destruct fuel as [|fuel]; [discriminate|].
  simpl. unfold eval_private_body.
  intros (prevEnv & st0 & Hprev & H)%bindE_Normal.
  injection Hprev as <- <-.
  apply bindE_Normal in H as (_ & st1 & _ & H).
  apply bindE_Normal in H as (_ & st2 & _ & H).
  apply bindE_Normal in H as (result & st3 & _ & H).
  apply bindE_Normal in H as (u & st4 & Hset & H).
  injection Hset as Hset. injection H as H1 H2. subst. reflexivity.
Qed.

(** The state in which the public [eval(expr, env)] runs [#eval_]: the
    [env] field holds the merge of the base environment and [env]. *)
Lemma eval_var_run (fuel : nat) (x : string) (env_ : option Environment)
    (st : State native) :
  eval runNative (S fuel) (Var x) env_ st =
  match get (eval_private runNative fuel) x
            (withEnv st (Some (mergeEnvs [Some (baseEnv st); Some (default ∅ env_)])))
  with
  | Done (Normal c) st2 =>
      match c ≫= (fun c => default None (cells st2 !! c)) with
      | Some v => Done (Normal v) (withEnv st2 (env st))
      | None => Done (Throw ("unbound variable: " +:+ x)) st2
      end
  | Done (Throw msg) st2 => Done (Throw msg) st2
  | OutOfFuel => OutOfFuel
  end.
Proof.
  unfold eval. simpl. unfold eval_private_body, eval_.
  unfold bindE, getsE, setEnv, modifyE, retE, throwE, cellValue. simpl.
  destruct (get _ x _) as [[c|msg] st2|]; try reflexivity.
  destruct c as [c|]; simpl; [|reflexivity].
  destruct (cells st2 !! c) as [[v|]|]; reflexivity.
Qed.

Lemma withEnv_env (st : State native) : withEnv st (env st) = st.
Proof. destruct st; reflexivity. Qed.

Lemma get_lexical (eval_rec : Expr -> option Environment -> option Environment ->
                              E native (Value native))
    (x : string) (st : State native) (e : Environment) (b : Binding) :
  env st = Some e -> e !! x = Some b ->
  get eval_rec x st = Done (Normal (Some (cell b))) st.
Proof.
  intros He Hb. unfold get, bindE, getsE. rewrite He, Hb. reflexivity.
Qed.

Lemma get_not_lexical (eval_rec : Expr -> option Environment -> option Environment ->
                                  E native (Value native))
    (x : string) (st : State native) (e : Environment) :
  env st = Some e -> e !! x = None ->
  get eval_rec x st = Defines_get eval_rec x st.
Proof.
  intros He Hb. unfold get, bindE, getsE. rewrite He, Hb. reflexivity.
Qed.

(** C8: the public [eval] of a [var] looks the name up in the merge of the
    base environment and the given one, and in [Defines] only when the name
    is not bound there.  A populated Cell gives its value, and the state of
    the evaluator is as before; when no Cell is found, or the Cell found is
    not populated, the evaluation throws ["unbound variable: " + name]; it
    throws nothing else, except what a producer run by [Defines] throws. *)
Theorem eval_var_lookup (fuel : nat) (x : string) (env_ : option Environment)
    (st : State native) :
  let merged := mergeEnvs [Some (baseEnv st); Some (default ∅ env_)] in
  let st1 := withEnv st (Some merged) in
  let unbound := "unbound variable: " +:+ x in
  let lookup := get (eval_private runNative fuel) x st1 in
  let result := eval runNative (S fuel) (Var x) env_ st in
  (* the lexical environment first, [Defines] only then *)
  (forall b, merged !! x = Some b -> lookup = Done (Normal (Some (cell b))) st1)
  /\ (merged !! x = None ->
      lookup = Defines_get (eval_private runNative fuel) x st1)
  (* the result by the Cell found *)
  /\ (forall c st2 v,
        lookup = Done (Normal (Some c)) st2 ->
        cells st2 !! c = Some (Some v) ->
        result = Done (Normal v) (withEnv st2 (env st)))
  /\ (forall c st2,
        lookup = Done (Normal (Some c)) st2 ->
        default None (cells st2 !! c) = None ->
        result = Done (Throw unbound) st2)
  /\ (forall st2, lookup = Done (Normal None) st2 -> result = Done (Throw unbound) st2)
  /\ (forall msg st2, lookup = Done (Throw msg) st2 -> result = Done (Throw msg) st2)
  (* a lexical binding, whatever [Defines] holds *)
  /\ (forall b v,
        merged !! x = Some b -> cells st !! cell b = Some (Some v) ->
        result = Done (Normal v) st)
  /\ (forall b,
        merged !! x = Some b -> default None (cells st !! cell b) = None ->
        result = Done (Throw unbound) st1)
  (* no lexical binding *)
  /\ (merged !! x = None ->
      cached (defines st) !! x = None -> thunks (defines st) !! x = None ->
      result = Done (Throw unbound) st1)
  /\ (forall c v,
        merged !! x = None -> cached (defines st) !! x = Some c ->
        cells st !! c = Some (Some v) ->
        result = Done (Normal v) st)
  /\ (forall c,
        merged !! x = None -> cached (defines st) !! x = Some c ->
        default None (cells st !! c) = None ->
        result = Done (Throw unbound) st1)
  /\ (forall e v st2,
        merged !! x = None ->
        cached (defines st) !! x = None -> thunks (defines st) !! x = Some e ->
        eval_private runNative fuel e None None
          {| baseEnv := baseEnv st;
             env := Some merged;
             defines := {| thunks := thunks (defines st);
                           cached := <[x := length (cells st)]> (cached (defines st)) |};
             cells := cells st ++ [None] |}
        = Done (Normal v) st2 ->
        exists st3, result = Done (Normal v) st3).
Proof.
  intros merged st1 unbound lookup result.
  assert (env st1 = Some merged) as Henv by reflexivity.
  assert (result =
          match lookup with
          | Done (Normal c) st2 =>
              match c ≫= (fun c => default None (cells st2 !! c)) with
              | Some v => Done (Normal v) (withEnv st2 (env st))
              | None => Done (Throw unbound) st2
              end
          | Done (Throw msg) st2 => Done (Throw msg) st2
          | OutOfFuel => OutOfFuel
          end) as Hrun by apply eval_var_run.
  assert (forall b, merged !! x = Some b ->
                    lookup = Done (Normal (Some (cell b))) st1) as Hlex.
  { intros b Hb. eapply get_lexical; eauto. }
  assert (merged !! x = None ->
          lookup = Defines_get (eval_private runNative fuel) x st1) as Hdef.
  { intros Hb. eapply get_not_lexical; eauto. }
  repeat split.
  - exact Hlex.
  - exact Hdef.
  - intros c st2 v Hl Hc. rewrite Hrun, Hl. simpl. rewrite Hc. reflexivity.
  - intros c st2 Hl Hc. rewrite Hrun, Hl. simpl. rewrite Hc. reflexivity.
  - intros st2 Hl. rewrite Hrun, Hl. reflexivity.
  - intros msg st2 Hl. rewrite Hrun, Hl. reflexivity.
  - intros b v Hb Hc. rewrite Hrun, (Hlex b Hb). simpl.
    change (cells st1) with (cells st). rewrite Hc. simpl.
    f_equal. exact (withEnv_env st).
  - intros b Hb Hc. rewrite Hrun, (Hlex b Hb). simpl.
    change (cells st1) with (cells st). rewrite Hc. reflexivity.
  - intros Hb Hc Ht. rewrite Hrun, (Hdef Hb).
    unfold Defines_get, bindE, getsE. simpl. rewrite Hc, Ht. reflexivity.
  - intros c v Hb Hc Hv. rewrite Hrun, (Hdef Hb).
    unfold Defines_get, bindE, getsE. simpl. rewrite Hc. simpl. rewrite Hv. simpl.
    f_equal. exact (withEnv_env st).
  - intros c Hb Hc Hv. rewrite Hrun, (Hdef Hb).
    unfold Defines_get, bindE, getsE. simpl. rewrite Hc. simpl. rewrite Hv.
    reflexivity.
  - intros e v st2 Hb Hc Ht Hprod. rewrite Hrun, (Hdef Hb).
    unfold Defines_get, bindE, getsE. simpl. rewrite Hc, Ht.
    unfold st1, withEnv. cbn [baseEnv env defines cells]. rewrite Hprod.
    unfold retE. simpl.
    rewrite lookup_app_r by reflexivity. rewrite Nat.sub_diag. simpl.
    eexists. reflexivity.
Qed.

(** C1 fails on the code: the value expressions of a [letrec] are evaluated
    by [this.#eval(value)] in the environment around the [letrec]; the
    pre-allocated Cells are given to the body only.  A closure made by a
    binding does not capture its siblings, and calling it throws; a direct
    reference to a sibling falls through to [Defines] and returns the global
    of that name when there is one. *)
Theorem letrec_siblings_not_in_scope (fuel : nat) :
  (exists st',
     eval runNative (3 + fuel) letrecThroughClosure None (newEvaluator ∅ noDefines)
     = Done (Throw "unbound variable: g") st')
  /\ (exists st',
        eval runNative (4 + fuel) letrecOverGlobal None (newEvaluator ∅ noDefines)
        = Done (Normal (VNumber 7)) st').
Proof.
  split; eexists; vm_compute; reflexivity.
Qed.

(** ** Reading merged environments *)

Lemma Environment_lookup_own (e : Environment) (x : string) :
  x <> "__proto__" -> e !! x = own e !! x.
Proof.
  intros Hx. unfold lookup at 1, Environment_lookup.
  rewrite (bool_decide_eq_false_2 _ Hx). destruct (own e !! x); reflexivity.
Qed.

Lemma Environment_lookup_empty (x : string) : (∅ : Environment) !! x = None.
Proof.
  unfold lookup, Environment_lookup. cbn [own proto Environment_empty empty].
  rewrite lookup_empty. destruct (bool_decide (x = "__proto__")); reflexivity.
Qed.

Lemma assign_lookup (target source : Environment) (x : string) :
  x <> "__proto__" ->
  assign target (Some source) !! x
  = match source !! x with
    | Some b => Some b
    | None => target !! x
    end.
Proof.
  intros Hx. rewrite !Environment_lookup_own by exact Hx. simpl.
  rewrite lookup_union, lookup_delete_ne by congruence.
  destruct (own source !! x), (own target !! x); reflexivity.
Qed.

Lemma mergeEnvs_snoc (environments : list (option Environment))
    (e : option Environment) :
  mergeEnvs (environments ++ [e]) = assign (mergeEnvs environments) e.
Proof. unfold mergeEnvs. rewrite foldl_snoc. reflexivity. Qed.

Lemma mergeEnvs_never_own (environments : list (option Environment)) :
  own (mergeEnvs environments) !! "__proto__" = None.
Proof.
  induction environments as [|e environments IH] using rev_ind; [reflexivity|].
  rewrite mergeEnvs_snoc. destruct e as [e|]; [|exact IH]. cbn [assign own].
  rewrite lookup_union, lookup_delete_eq, IH. reflexivity.
Qed.

(** A name is read in the last environment merged, by its own keys, and
    in the merge of the others when it is no own key of the last. *)
Lemma mergeEnvs_snoc_lookup (environments : list (option Environment))
    (e : Environment) (x : string) :
  mergeEnvs (environments ++ [Some e]) !! x
  = match own e !! x with
    | Some b => Some b
    | None => mergeEnvs environments !! x
    end.
Proof.
  rewrite mergeEnvs_snoc. destruct (decide (x = "__proto__")) as [->|Hx].
  - unfold lookup at 1 3, Environment_lookup.
    cbn [assign own proto]. rewrite lookup_union, lookup_delete_eq.
    rewrite !mergeEnvs_never_own. rewrite bool_decide_eq_true_2 by reflexivity.
    destruct (own e !! "__proto__"); reflexivity.
  - rewrite assign_lookup, (Environment_lookup_own e) by exact Hx. reflexivity.
Qed.

Lemma mergeEnvs_pair_lookup (a : option Environment) (b : Environment) (x : string) :
  x <> "__proto__" ->
  mergeEnvs [a; Some b] !! x
  = match b !! x with
    | Some v => Some v
    | None => default ∅ a !! x
    end.
Proof.
  intros Hx. unfold mergeEnvs. cbn [foldl].
  rewrite assign_lookup by exact Hx. destruct (b !! x); [reflexivity|].
  destruct a as [a|]; [|reflexivity].
  change (default ∅ (Some a)) with a.
  rewrite assign_lookup by exact Hx. rewrite Environment_lookup_empty.
  destruct (a !! x); reflexivity.
Qed.

Lemma singleton_lookup (k x : string) (b : Binding) :
  x <> "__proto__" ->
  ({[ k := b ]} : Environment) !! x = if bool_decide (k = x) then Some b else None.
Proof.
  intros Hx. rewrite Environment_lookup_own by exact Hx. simpl.
  destruct (bool_decide (k = x)) eqn:Hk.
  - apply bool_decide_eq_true in Hk as ->. apply lookup_singleton_eq.
  - apply bool_decide_eq_false in Hk. apply lookup_singleton_ne. exact Hk.
Qed.

(** The environment [#eval] installs before it runs [#eval_]. *)
Lemma eval_private_unfold (fuel : nat) (expr : Expr)
    (env_ extendEnv : option Environment) (st : State native) :
  eval_private runNative (S fuel) expr env_ extendEnv st
  = let e1 := match env_ with
              | Some e => Some (mergeEnvs [Some (baseEnv st); Some e])
              | None => env st
              end in
    let e2 := match extendEnv with
              | Some e => Some (mergeEnvs [e1; Some e])
              | None => e1
              end in
    match eval_ runNative (eval_private runNative fuel) (call runNative fuel) expr
                (withEnv st e2) with
    | Done (Normal v) st' => Done (Normal v) (withEnv st' (env st))
    | Done (Throw msg) st' => Done (Throw msg) st'
    | OutOfFuel => OutOfFuel
    end.
Proof.
  simpl. unfold eval_private_body, bindE, getsE, setEnv, modifyE, retE, withEnv.
  destruct st as [b e d c]; destruct env_, extendEnv; simpl;
    match goal with |- context [eval_ _ _ _ _ ?s] =>
      destruct (eval_ runNative (eval_private runNative fuel) (call runNative fuel) expr s)
        as [[v|msg] st'|] end; reflexivity.
Qed.

(** ** The call environment *)

Lemma call_loop (signature : list Param) (args : list (Value native))
    (callEnv : Environment) (st : State native) :
  foldlE (fun callEnv '(p, value) =>
            bindE (newCell (Some value)) (fun c =>
              retE (mergeEnvs
                      [Some callEnv;
                       Some {[ param_name p :=
                                 {| name := param_name p; cell := c |} ]}])))
         callEnv (zip signature args) st
  = Done (Normal (bindParams callEnv (length (cells st)) signature args))
         {| baseEnv := baseEnv st; env := env st; defines := defines st;
            cells := cells st ++ (Some <$> take (length signature) args) |}.
Proof.
  revert args callEnv st.
  induction signature as [|p signature IH]; intros args callEnv st.
  - simpl. unfold retE. rewrite app_nil_r. destruct st; reflexivity.
  - destruct args as [|v args].
    + simpl. unfold retE. rewrite app_nil_r. destruct st; reflexivity.
    + cbn [zip zip_with foldlE]. unfold bindE at 1. unfold bindE at 1.
      unfold newCell at 1. unfold retE at 1. rewrite IH.
      cbn [cells baseEnv env defines bindParams take length fmap list_fmap].
      rewrite length_app, Nat.add_1_r, <- app_assoc. reflexivity.
Qed.

Lemma call_closure_unfold (fuel : nat) (signature : list Param) (body : Expr)
    (fnEnv : option Environment) (args : list (Value native)) (st : State native) :
  call runNative (S fuel) (VFn signature (Interpreted body) fnEnv) args st
  = match checkCallAgainstTypeSignature args signature st with
    | Done (Normal _) st0 =>
        eval_private runNative fuel body
          (Some (bindParams (default ∅ fnEnv) (length (cells st0)) signature args)) None
          {| baseEnv := baseEnv st0; env := env st0; defines := defines st0;
             cells := cells st0 ++ (Some <$> take (length signature) args) |}
    | Done (Throw msg) st0 => Done (Throw msg) st0
    | OutOfFuel => OutOfFuel
    end.
Proof.
  simpl. unfold call_body. unfold bindE at 1.
  destruct (checkCallAgainstTypeSignature args signature st) as [[[]|msg] st0|];
    try reflexivity.
  unfold bindE at 1. rewrite call_loop. reflexivity.
Qed.

(** A name that no parameter with an argument bears is read as before the
    loop. *)
Lemma bindParams_other (callEnv : Environment) (c : nat) (signature : list Param)
    (args : list (Value native)) (x : string) :
  x <> "__proto__" ->
  (forall i p, signature !! i = Some p -> i < length args -> param_name p <> x) ->
  bindParams callEnv c signature args !! x = callEnv !! x.
Proof.
  intros Hx. revert callEnv c args.
  induction signature as [|q signature IH]; intros callEnv c args Hnone;
    [reflexivity|].
  destruct args as [|v args]; [reflexivity|]. cbn [bindParams].
  rewrite IH.
  - rewrite mergeEnvs_pair_lookup, singleton_lookup by exact Hx.
    rewrite bool_decide_eq_false_2; [reflexivity|].
    apply (Hnone 0 q eq_refl). simpl. lia.
  - intros i p Hp Hi. apply (Hnone (S i) p Hp). simpl. lia.
Qed.

(** A parameter with an argument, when no later one with an argument bears
    its name, is read as bound to its Cell. *)
Lemma bindParams_bound (callEnv : Environment) (c : nat) (signature : list Param)
    (args : list (Value native)) (i : nat) (p : Param) :
  param_name p <> "__proto__" ->
  signature !! i = Some p -> i < length args ->
  (forall j q, i < j -> signature !! j = Some q -> j < length args ->
               param_name q <> param_name p) ->
  bindParams callEnv c signature args !! param_name p
  = Some {| name := param_name p; cell := c + i |}.
Proof.
  intros Hx. revert callEnv c args i.
  induction signature as [|q signature IH]; intros callEnv c args i Hp Hi Hlater;
    [discriminate|].
  destruct args as [|v args]; [simpl in Hi; lia|]. cbn [bindParams].
  destruct i as [|i].
  - injection Hp as ->. rewrite bindParams_other.
    + rewrite mergeEnvs_pair_lookup, singleton_lookup by exact Hx.
      rewrite bool_decide_eq_true_2 by reflexivity. rewrite Nat.add_0_r. reflexivity.
    + exact Hx.
    + intros j q' Hq Hj. apply (Hlater (S j) q'); [lia | exact Hq | simpl; lia].
  - rewrite (IH _ (S c) args i Hp).
    + replace (c + S i) with (S c + i) by lia. reflexivity.
    + simpl in Hi. lia.
    + intros j q' Hij Hq Hj. apply (Hlater (S j) q'); [lia | exact Hq | simpl; lia].
Qed.


End EvaluatorProperties.

(** C10 on [((lambda (x) x) 42)], evaluated by an evaluator whose [env]
    field holds a binding of [outer]: the evaluation returns 42, and the
    field holds that binding again. *)
Lemma eval_private_restores_env_witness :
  exists st',
    eval_private noNative 3
      (Call (Lambda [binding "x"] (Var "x")) [Lit (DNumber 42)]) (Some ∅) None
      {| baseEnv := ∅;
         env := Some {[ "outer" := {| name := "outer"; cell := 0 |} ]};
         defines := noDefines;
         cells := [Some (VNumber 0)] |}
    = Done (Normal (VNumber 42)) st'
    /\ env st' = Some {[ "outer" := {| name := "outer"; cell := 0 |} ]}.
Proof.
  eexists. split; [vm_compute; reflexivity|].
  apply (eval_private_restores_env noNative 3
           (Call (Lambda [binding "x"] (Var "x")) [Lit (DNumber 42)]) (Some ∅) None
           {| baseEnv := ∅;
              env := Some {[ "outer" := {| name := "outer"; cell := 0 |} ]};
              defines := noDefines;
              cells := [Some (VNumber 0)] |}
           _ (VNumber 42)).
  vm_compute. reflexivity.
Defined.

(** C8 on an evaluator whose [Defines] has a producer for [x], asked for
    [x] in an environment that binds [x] to a Cell holding 42: the lexical
    binding wins. *)
Lemma eval_var_lookup_witness :
  eval noNative 1 (Var "x")
       (Some {[ "x" := {| name := "x"; cell := 0 |} ]})
       {| baseEnv := ∅; env := None;
          defines := {| thunks := {[ "x" := Lit (DNumber 7) ]}; cached := ∅ |};
          cells := [Some (VNumber 42)] |}
  = Done (Normal (VNumber 42))
         {| baseEnv := ∅; env := None;
            defines := {| thunks := {[ "x" := Lit (DNumber 7) ]}; cached := ∅ |};
            cells := [Some (VNumber 42)] |}.
Proof.
  destruct (eval_var_lookup noNative 0 "x"
              (Some {[ "x" := {| name := "x"; cell := 0 |} ]})
              {| baseEnv := ∅; env := None;
                 defines := {| thunks := {[ "x" := Lit (DNumber 7) ]}; cached := ∅ |};
                 cells := [Some (VNumber 42)] |})
    as (_ & _ & _ & _ & _ & _ & Hlexical & _).
  apply (Hlexical {| name := "x"; cell := 0 |} (VNumber 42)); reflexivity.
Defined.



(* ===================================================================== *)
(** * Properties of environments and builtins *)
(* ===================================================================== *)

Lemma makeEnv_snoc (bindings : list Binding) (b : Binding) :
  own (makeEnv (bindings ++ [b])) = <[name b := b]> (own (makeEnv bindings)).
Proof. unfold makeEnv. cbn [own]. rewrite foldl_snoc. reflexivity. Qed.

Lemma makeEnv_own_last (bindings : list Binding) (k : string) :
  own (makeEnv bindings) !! k = last (filter (fun b => name b = k) bindings).
Proof.
  induction bindings as [|b bindings IH] using rev_ind; [reflexivity|].
  rewrite makeEnv_snoc, filter_app, filter_cons, filter_nil.
  destruct (decide (name b = k)) as [<-|Hne].
  - rewrite lookup_insert_eq, last_snoc. reflexivity.
  - rewrite lookup_insert_ne by exact Hne. rewrite app_nil_r. exact IH.
Qed.

Lemma makeEnv_last (bindings : list Binding) (k : string) :
  makeEnv bindings !! k = last (filter (fun b => name b = k) bindings).
Proof.
  rewrite <- makeEnv_own_last. unfold lookup at 1, Environment_lookup.
  destruct (own (makeEnv bindings) !! k); [reflexivity|].
  destruct (bool_decide (k = "__proto__")); reflexivity.
Qed.

(** X18: [makeEnv] keys the bindings by their names, and the last binding
    of a name wins: looking a name up gives the last binding of the list
    that has it, which is a binding of the list and carries the name; and a
    name is unbound exactly when no binding of the list has it. *)
Theorem makeEnv_lookup (bindings : list Binding) (k : string) :
  makeEnv bindings !! k = last (filter (fun b => name b = k) bindings)
  /\ (forall b, makeEnv bindings !! k = Some b -> name b = k /\ b ∈ bindings)
  /\ (makeEnv bindings !! k = None <-> forall b, b ∈ bindings -> name b <> k).
Proof.
  split; [apply makeEnv_last|]. rewrite makeEnv_last. split.
  - intros b Hb%last_Some_elem_of. apply list_elem_of_filter in Hb. exact Hb.
  - rewrite last_None. split.
    + intros Hnil b Hb Hk.
      exact (filter_nil_not_elem_of (fun b => name b = k) _ b Hnil Hk Hb).
    + intros Hall. destruct (filter _ bindings) as [|b l] eqn:Hf; [reflexivity|].
      assert (b ∈ filter (fun b => name b = k) bindings) as Hb
        by (rewrite Hf; apply list_elem_of_here).
      apply list_elem_of_filter in Hb as [Hk Hb]. destruct (Hall b Hb Hk).
Qed.

(** X19: [makeEnv] of the values of an environment made by [makeEnv] is
    that environment ([makeEnv(Object.values(env))], as in the [letrec]
    case of the evaluator). *)
Theorem makeEnv_values (bindings : list Binding) :
  makeEnv (Object_values (makeEnv bindings)) = makeEnv bindings.
Proof.
  assert (own (makeEnv (Object_values (makeEnv bindings))) = own (makeEnv bindings))
    as Hown; [|unfold makeEnv in *; cbn [own] in Hown; rewrite Hown; reflexivity].
  unfold Object_values.
  set (e := own (makeEnv bindings)).
  assert (forall k b, e !! k = Some b -> name b = k) as Hkeys.
  { intros k b Hb. unfold e in Hb. rewrite makeEnv_own_last in Hb.
    apply last_Some_elem_of, list_elem_of_filter in Hb. tauto. }
  clearbody e. apply map_eq. intros k. rewrite makeEnv_own_last.
  destruct (e !! k) as [b|] eqn:Hk.
  - assert (b ∈ filter (fun b => name b = k) (snd <$> map_to_list e)) as Hin.
    { apply list_elem_of_filter. split; [eauto|].
      apply list_elem_of_fmap. exists (k, b). split; [reflexivity|].
      apply elem_of_map_to_list. exact Hk. }
    destruct (last (filter (fun b => name b = k) (snd <$> map_to_list e)))
      as [b'|] eqn:Hlast.
    + apply last_Some_elem_of, list_elem_of_filter in Hlast as [Hname Hb'].
      apply list_elem_of_fmap in Hb' as ([k' b''] & -> & Hb'').
      apply elem_of_map_to_list in Hb''. simpl in Hname.
      rewrite (Hkeys _ _ Hb'') in Hname. subst k'. simpl. congruence.
    + apply last_None in Hlast. rewrite Hlast in Hin.
      apply elem_of_nil in Hin as [].
  - apply last_None.
    destruct (filter (fun b => name b = k) (snd <$> map_to_list e)) as [|b l] eqn:Hf;
      [reflexivity|].
    assert (b ∈ filter (fun b => name b = k) (snd <$> map_to_list e)) as Hin
      by (rewrite Hf; apply list_elem_of_here).
    apply list_elem_of_filter in Hin as [Hname Hb].
    apply list_elem_of_fmap in Hb as ([k' b'] & -> & Hb').
    apply elem_of_map_to_list in Hb'. simpl in Hname.
    rewrite (Hkeys _ _ Hb') in Hname. subst k'. congruence.
Qed.

Lemma delete_never_own (environments : list (option Environment)) :
  delete "__proto__" (own (mergeEnvs environments)) = own (mergeEnvs environments).
Proof. apply delete_id, mergeEnvs_never_own. Qed.

Lemma mergeEnvs_app_own (l1 l2 : list (option Environment)) :
  own (mergeEnvs (l1 ++ l2)) = own (mergeEnvs l2) ∪ own (mergeEnvs l1).
Proof.
  induction l2 as [|e l2 IH] using rev_ind.
  - rewrite app_nil_r. change (own (mergeEnvs [])) with (∅ : gmap string Binding).
    rewrite (left_id_L ∅ (∪)). reflexivity.
  - rewrite app_assoc, !mergeEnvs_snoc. destruct e as [e|]; [|exact IH].
    cbn [assign own]. rewrite IH, (assoc_L (∪)). reflexivity.
Qed.

(** X20: [mergeEnvs] gives precedence to the later environments: a name
    other than [__proto__] is looked up in the last environment first and
    in the merge of the others only when the last does not bind it; an
    [undefined] environment contributes nothing.  An own key [__proto__]
    of the last environment does not become an own key of the merge but its
    prototype, found under that name; what the last environment inherits
    is not carried over.  So merging the merge of some environments with
    the merge of others gives the own keys of the merge of them all, and
    loses a binding named [__proto__]. *)
Theorem mergeEnvs_precedence (l1 l2 : list (option Environment))
    (e : Environment) (k : string) :
  (k <> "__proto__" ->
   mergeEnvs (l1 ++ [Some e]) !! k
   = match e !! k with
     | Some b => Some b
     | None => mergeEnvs l1 !! k
     end)
  /\ mergeEnvs (l1 ++ [Some e]) !! "__proto__"
     = match own e !! "__proto__" with
       | Some b => Some b
       | None => mergeEnvs l1 !! "__proto__"
       end
  /\ own (mergeEnvs l1) !! "__proto__" = None
  /\ mergeEnvs (l1 ++ [None]) = mergeEnvs l1
  /\ mergeEnvs [] = ∅
  /\ own (mergeEnvs [Some (mergeEnvs l1); Some (mergeEnvs l2)])
     = own (mergeEnvs (l1 ++ l2))
  /\ proto (mergeEnvs [Some (mergeEnvs l1); Some (mergeEnvs l2)]) = None
  /\ (k <> "__proto__" ->
      mergeEnvs [Some (mergeEnvs l1); Some (mergeEnvs l2)] !! k
      = mergeEnvs (l1 ++ l2) !! k).
Proof.
  assert (own (mergeEnvs [Some (mergeEnvs l1); Some (mergeEnvs l2)])
          = own (mergeEnvs (l1 ++ l2))) as Hown.
  { rewrite mergeEnvs_app_own. unfold mergeEnvs at 1. cbn [foldl assign own].
    rewrite !delete_never_own.
    change (own ∅) with (∅ : gmap string Binding).
    rewrite (right_id_L ∅ (∪)). reflexivity. }
  split; [|split; [|split; [|split; [|split; [|split; [|split]]]]]].
  - intros Hk. rewrite mergeEnvs_snoc. apply assign_lookup. exact Hk.
  - apply mergeEnvs_snoc_lookup.
  - apply mergeEnvs_never_own.
  - rewrite mergeEnvs_snoc. reflexivity.
  - reflexivity.
  - exact Hown.
  - unfold mergeEnvs at 1. cbn [foldl assign proto].
    rewrite !mergeEnvs_never_own. reflexivity.
  - intros Hk. rewrite !Environment_lookup_own by exact Hk. rewrite Hown. reflexivity.
Qed.

(** X20 at the environment that binds the name [x], merged after the one
    that binds [y]. *)
Lemma mergeEnvs_precedence_witness :
  mergeEnvs ([Some {[ "y" := {| name := "y"; cell := 0 |} ]}]
             ++ [Some {[ "x" := {| name := "x"; cell := 1 |} ]}]) !! "x"
  = Some {| name := "x"; cell := 1 |}.
Proof.
  rewrite (proj1 (mergeEnvs_precedence
                    [Some {[ "y" := {| name := "y"; cell := 0 |} ]}] []
                    {[ "x" := {| name := "x"; cell := 1 |} ]} "x"))
    by discriminate.
  reflexivity.
Defined.

Lemma chainCompare_loop_adjacent {Item} (compare : Item -> Item -> bool)
    (prev : Item) (items : list Item) :
  chainCompare_loop compare prev items = true <->
  forall i a b, (prev :: items) !! i = Some a -> items !! i = Some b ->
                compare a b = true.
Proof.
  revert prev. induction items as [|cur items IH]; intros prev; simpl.
  - split; [|reflexivity]. intros _ i a b _ Hb. destruct i; discriminate.
  - destruct (compare prev cur) eqn:Hc.
    + rewrite IH. split.
      * intros H [|i] a b Ha Hb; simpl in *; [congruence|]. eapply H; eauto.
      * intros H i a b Ha Hb. apply (H (S i)); assumption.
    + split; [discriminate|]. intros H.
      rewrite <- Hc. apply (H 0); reflexivity.
Qed.

(** X21: [chainCompare] holds exactly when [compare] holds of every two
    neighbours of the list, so always on a list of at most one item; and
    when [compare] is transitive, exactly when it holds of every item and
    every later one. *)
Theorem chainCompare_neighbours {Item} (items : list Item)
    (compare : Item -> Item -> bool) :
  (chainCompare items compare = true <->
   forall i a b, items !! i = Some a -> items !! S i = Some b -> compare a b = true)
  /\ (length items <= 1 -> chainCompare items compare = true)
  /\ ((forall a b c, compare a b = true -> compare b c = true -> compare a c = true) ->
      (chainCompare items compare = true <->
       forall i j a b, i < j -> items !! i = Some a -> items !! j = Some b ->
                       compare a b = true)).
Proof.
  assert (chainCompare items compare = true <->
          forall i a b, items !! i = Some a -> items !! S i = Some b ->
                        compare a b = true) as Hadj.
  { destruct items as [|prev items]; simpl.
    - split; [|reflexivity]. intros _ i a b Ha. discriminate.
    - apply chainCompare_loop_adjacent. }
  split; [exact Hadj|]. split.
  - intros Hlen. apply Hadj. intros i a b Ha Hb.
    apply lookup_lt_Some in Hb. lia.
  - intros Htrans. rewrite Hadj. split.
    + intros H i j a b Hij. revert b. induction Hij as [|j Hij IH]; intros b Ha Hb.
      * eapply H; eauto.
      * destruct (lookup_lt_is_Some_2 items j) as [c Hc].
        { apply lookup_lt_Some in Hb. lia. }
        eapply Htrans; [apply IH; eauto | eapply H; eauto].
    + intros H i a b Ha Hb. apply (H i (S i)); [lia | assumption | assumption].
Qed.

(** X21 for [<] on the integers 1, 2, 3. *)
Lemma chainCompare_neighbours_witness :
  chainCompare [1; 2; 3]%Z Z.ltb = true
  /\ forall i j a b, i < j -> [1; 2; 3]%Z !! i = Some a -> [1; 2; 3]%Z !! j = Some b ->
                     Z.ltb a b = true.
Proof.
  split; [reflexivity|].
  apply (proj2 (proj2 (chainCompare_neighbours [1; 2; 3]%Z Z.ltb))).
  - intros a b c Hab%Z.ltb_lt Hbc%Z.ltb_lt. apply Z.ltb_lt. lia.
  - reflexivity.
Defined.

Lemma builtin_rest_iter_heads {native : Type} (k : nat) (elements : list (Value native)) :
  builtin_rest_iter k (VList elements None) = Normal (VList (drop k elements) None).
Proof.
  revert elements. induction k as [|k IH]; intros elements; [reflexivity|].
  destruct elements as [|a [|b l]]; simpl.
  - rewrite IH, drop_nil. reflexivity.
  - rewrite IH, drop_nil. destruct k; reflexivity.
  - rewrite IH. reflexivity.
Qed.

Lemma builtin_rest_iter_cons_list {native : Type} (k : nat)
    (elements : list (Value native)) :
  builtin_rest_iter k (cons_list elements) = Normal (cons_list (drop k elements)).
Proof.
  revert elements. induction k as [|k IH]; intros elements; [reflexivity|].
  destruct elements as [|a l]; simpl.
  - pose proof (IH []) as H. rewrite drop_nil in H. exact H.
  - exact (IH l).
Qed.

(** X22: [first] and [rest] of a pair made by [cons] are its head and its
    tail.  A list with the elements as its heads and the list made of the
    same elements by [cons] cannot be told apart by the builtins: [first]
    after [k] times [rest] gives the element [k] of either, and [undefined]
    beyond the end, without an error; and [null?] holds of either exactly
    when there is no element. *)
Theorem list_builtins_observe {native : Type} (elements : list (Value native))
    (k : nat) (head tail : Value native) :
  builtin_first (builtin_cons head tail) = Normal (Some head)
  /\ builtin_rest (builtin_cons head tail) = Normal tail
  /\ first_after_rests k (VList elements None) = Normal (elements !! k)
  /\ first_after_rests k (cons_list elements) = Normal (elements !! k)
  /\ builtin_null_p (Some (VList elements None)) = VBool (bool_decide (elements = []))
  /\ builtin_null_p (Some (cons_list elements)) = VBool (bool_decide (elements = [])).
Proof.
  split; [reflexivity|]. split; [reflexivity|]. split; [|split; [|split]].
  - unfold first_after_rests. rewrite builtin_rest_iter_heads. simpl.
    rewrite lookup_drop, Nat.add_0_r. reflexivity.
  - unfold first_after_rests. rewrite builtin_rest_iter_cons_list.
    rewrite <- (Nat.add_0_r k) at 2. rewrite <- lookup_drop.
    destruct (drop k elements); reflexivity.
  - destruct elements; reflexivity.
  - destruct elements; reflexivity.
Qed.

(* ===================================================================== *)
(** * Further properties of the evaluator *)
(* ===================================================================== *)

Section EvaluatorFurther.
Context {native : Type}.
Context (runNative : native ->
                     (Value native -> list (Value native) -> E native (Value native)) ->
                     list (Value native) -> E native (Value native)).

(** X23: a throw of [#eval_] passes through [#eval] with the evaluator as
    it is at that moment: [#eval] throws exactly when [#eval_] does in the
    environment installed, and then [this.env] is not put back.  So
    evaluating a hole with a new evaluator leaves its [env] set. *)
Theorem eval_private_throw_keeps_env (fuel : nat) (expr : Expr)
    (env_ extendEnv : option Environment) (st st' : State native) (msg : string) :
  let e1 := match env_ with
            | Some e => Some (mergeEnvs [Some (baseEnv st); Some e])
            | None => env st
            end in
  let e2 := match extendEnv with
            | Some e => Some (mergeEnvs [e1; Some e])
            | None => e1
            end in
  (eval_private runNative (S fuel) expr env_ extendEnv st = Done (Throw msg) st'
   <-> eval_ runNative (eval_private runNative fuel) (call runNative fuel) expr
             (withEnv st e2) = Done (Throw msg) st')
  /\ (forall b d e,
        eval runNative (S fuel) Hole e (newEvaluator b d)
        = Done (Throw "evaluating hole as expression")
               (withEnv (newEvaluator b d)
                        (Some (mergeEnvs [Some b; Some (default ∅ e)])))).
Proof.
  intros e1 e2. split.
  - subst e1 e2. rewrite eval_private_unfold. cbv zeta.
    match goal with |- context [eval_ _ _ _ _ ?s] =>
      destruct (eval_ runNative (eval_private runNative fuel) (call runNative fuel) expr s)
        as [[v|msg'] st2|] end;
      split; intros H; try discriminate; exact H.
  - intros b d e. unfold eval. rewrite eval_private_unfold. reflexivity.
Qed.

(** X24: when the called expression of a call evaluates to a value that is
    no function, the call throws ["cannot call non-function"] right after,
    without evaluating an argument. *)
Theorem call_non_function (fuel : nat) (called : Expr) (args : list Expr)
    (st st1 : State native) (v : Value native) :
  eval_private runNative fuel called None None st = Done (Normal v) st1 ->
  (forall signature body fnEnv, v <> VFn signature body fnEnv) ->
  eval_private runNative (S fuel) (Call called args) None None st
  = Done (Throw "cannot call non-function") st1.
Proof.
  intros Hcalled Hv. rewrite eval_private_unfold. cbv zeta.
  rewrite withEnv_env. cbn [eval_]. unfold bindE at 1. rewrite Hcalled.
  destruct v; try reflexivity. destruct (Hv _ _ _ eq_refl).
Qed.

Lemma checkCallAgainstTypeSignature_pure (args : list (Value native))
    (signature : list Param) (st st2 : State native) :
  checkCallAgainstTypeSignature args signature st
  = match checkCallAgainstTypeSignature args signature st2 with
    | Done c _ => Done c st
    | OutOfFuel => OutOfFuel
    end.
Proof.
  unfold checkCallAgainstTypeSignature.
  destruct (negb (arityOk args signature)); [reflexivity|].
  destruct (negb (forallb _ _)); reflexivity.
Qed.

(** With an explicit environment, what [#eval] does depends on the [env]
    field only in what it puts back at the end. *)
Lemma eval_private_env_frame (fuel : nat) (expr : Expr) (e : Environment)
    (extendEnv e' : option Environment) (st : State native) :
  eval_private runNative fuel expr (Some e) extendEnv (withEnv st e')
  = match eval_private runNative fuel expr (Some e) extendEnv st with
    | Done (Normal v) st2 => Done (Normal v) (withEnv st2 e')
    | Done (Throw msg) st2 => Done (Throw msg) st2
    | OutOfFuel => OutOfFuel
    end.
Proof.
  destruct fuel as [|fuel]; [reflexivity|].
  rewrite !eval_private_unfold. cbv zeta.
  destruct st as [b en d c]. destruct extendEnv; unfold withEnv; simpl;
    match goal with |- context [eval_ _ _ _ _ ?s] =>
      destruct (eval_ runNative (eval_private runNative fuel) (call runNative fuel) expr s)
        as [[v|msg] st2|] end; reflexivity.
Qed.

(** X25: closures are lexically scoped: what a call of a closure returns
    or throws does not depend on the environment in force at the call.
    When the call returns, it returns the same value with [env] set to any
    other environment, and leaves the same state but for that field. *)
Theorem closure_call_lexical (fuel : nat) (signature : list Param) (body : Expr)
    (fnEnv : option Environment) (args : list (Value native))
    (e' : option Environment) (st : State native) :
  let fn := VFn signature (Interpreted body) fnEnv in
  (forall v st2,
     call runNative fuel fn args st = Done (Normal v) st2 ->
     call runNative fuel fn args (withEnv st e') = Done (Normal v) (withEnv st2 e'))
  /\ (forall msg st2,
        call runNative fuel fn args st = Done (Throw msg) st2 ->
        exists st2', call runNative fuel fn args (withEnv st e') = Done (Throw msg) st2')
  /\ (call runNative fuel fn args st = OutOfFuel ->
      call runNative fuel fn args (withEnv st e') = OutOfFuel).
Proof.
  intros fn. subst fn.
  destruct fuel as [|fuel]; [repeat split; intros; discriminate|].
  rewrite !call_closure_unfold.
  rewrite (checkCallAgainstTypeSignature_pure args signature (withEnv st e') st).
  pose proof (checkCallAgainstTypeSignature_pure args signature st st) as Hpure.
  destruct (checkCallAgainstTypeSignature args signature st) as [[[]|msg0] st0|].
  2:{ repeat split; intros; try discriminate;
        match goal with H : Done _ _ = Done _ _ |- _ => injection H as <- <- end; eauto. }
  2:{ repeat split; intros; try discriminate; reflexivity. }
  injection Hpure as ->.
  cbn [cells baseEnv env defines withEnv].
  set (st1 := {| baseEnv := baseEnv st; env := env st; defines := defines st;
                 cells := cells st ++ (Some <$> take (length signature) args) |}).
  change {| baseEnv := baseEnv st; env := e'; defines := defines st;
            cells := cells st ++ (Some <$> take (length signature) args) |}
    with (withEnv st1 e').
  rewrite eval_private_env_frame.
  destruct (eval_private runNative fuel body _ None st1) as [[v|msg] st2|];
    repeat split; intros; try discriminate; try congruence; eauto.
Qed.

(** X26: [(let ((x e)) x)] evaluates to what [e] evaluates to, whatever
    [x] stands for outside; a new Cell holds the value, and [env] is put
    back. *)
Theorem let_binding_visible (fuel : nat) (x : NameBinding) (e : Expr)
    (st st2 : State native) (v : Value native) :
  eval_private runNative (S fuel) e None None st = Done (Normal v) st2 ->
  eval_private runNative (S (S fuel)) (Let [(x, e)] (Var (id x))) None None st
  = Done (Normal v)
         {| baseEnv := baseEnv st2; env := env st; defines := defines st2;
            cells := cells st2 ++ [Some v] |}.
Proof.
  intros He. rewrite eval_private_unfold. cbv zeta. rewrite withEnv_env.
  cbn [eval_ mapE]. unfold bindE at 1. unfold bindE at 1. unfold bindE at 1.
  rewrite He. unfold bindE at 1. unfold newCell at 1. unfold retE at 1.
  unfold bindE at 1. unfold retE at 1. unfold retE at 1.
  rewrite eval_private_unfold. cbv zeta.
  cbn [eval_]. unfold bindE at 1.
  set (c := length (cells st2)).
  set (st3 := {| baseEnv := baseEnv st2; env := env st2; defines := defines st2;
                 cells := cells st2 ++ [Some v] |}).
  assert (own (makeEnv [{| name := id x; cell := c |}]) !! id x
          = Some {| name := id x; cell := c |}) as Hx.
  { unfold makeEnv. simpl. apply lookup_insert_eq. }
  set (merged := mergeEnvs [env st3; Some (makeEnv [{| name := id x; cell := c |}])]).
  assert (merged !! id x = Some {| name := id x; cell := c |}) as Hm.
  { unfold merged.
    rewrite (mergeEnvs_snoc_lookup [env st3] (makeEnv [{| name := id x; cell := c |}])).
    rewrite Hx. reflexivity. }
  rewrite (get_lexical _ (id x) (withEnv st3 (Some merged)) merged _ eq_refl Hm).
  unfold bindE, cellValue, getsE. cbn [cell cells withEnv st3].
  assert ((cells st2 ++ [Some v]) !! c = Some (Some v)) as ->.
  { unfold c. rewrite lookup_app_r by lia. rewrite Nat.sub_diag. reflexivity. }
  reflexivity.
Qed.

Lemma mapE_snoc {A B} (f : A -> E native B) (l : list A) (a : A)
    (st st1 st2 : State native) (bs : list B) (b : B) :
  mapE f l st = Done (Normal bs) st1 ->
  f a st1 = Done (Normal b) st2 ->
  mapE f (l ++ [a]) st = Done (Normal (bs ++ [b])) st2.
Proof.
  revert st bs. induction l as [|a' l IH]; intros st bs Hl Ha; simpl in *.
  - injection Hl as <- <-. unfold bindE. rewrite Ha. reflexivity.
  - unfold bindE in *. destruct (f a' st) as [[b'|msg] st'|]; try discriminate.
    destruct (mapE f l st') as [[bs'|msg] st''|] eqn:Hl'; try discriminate.
    injection Hl as <- <-.
    rewrite (IH st' bs' Hl' Ha). reflexivity.
Qed.

(** X27: a sequence evaluates its expressions in order and returns the
    value of the last one; the empty sequence returns the empty list. *)
Theorem sequence_returns_last (fuel : nat) (exprs : list Expr) (last_ : Expr)
    (st st1 st2 : State native) (vs : list (Value native)) (v : Value native) :
  (mapE (fun expr => eval_private runNative fuel expr None None) exprs st
   = Done (Normal vs) st1 ->
   eval_private runNative fuel last_ None None st1 = Done (Normal v) st2 ->
   eval_private runNative (S fuel) (Sequence (exprs ++ [last_])) None None st
   = Done (Normal v) (withEnv st2 (env st)))
  /\ eval_private runNative (S fuel) (Sequence []) None None st
     = Done (Normal (VList [] None)) st.
Proof.
  split.
  - intros Hexprs Hlast. rewrite eval_private_unfold. cbv zeta.
    rewrite withEnv_env. cbn [eval_]. unfold bindE.
    rewrite (mapE_snoc _ _ _ _ _ _ _ _ Hexprs Hlast).
    unfold retE. rewrite last_snoc. reflexivity.
  - rewrite eval_private_unfold. cbv zeta. rewrite withEnv_env.
    cbn [eval_ mapE]. unfold bindE, retE. simpl. rewrite withEnv_env. reflexivity.
Qed.

Lemma eval_private_Lambda (fuel : nat) (params : list NameBinding) (body : Expr)
    (st : State native) :
  eval_private runNative (S fuel) (Lambda params body) None None st
  = Done (Normal (VFn (map (fun param => {| param_name := id param;
                                            param_type := None;
                                            variadic := false |}) params)
                      (Interpreted body) (env st))) st.
Proof.
  rewrite eval_private_unfold. cbv zeta. rewrite withEnv_env.
  cbn [eval_]. unfold bindE, getsE, retE. rewrite withEnv_env. reflexivity.
Qed.

(** X28: applying a [lambda] expression to arguments evaluates the
    arguments in order, makes a new Cell for every parameter that has an
    argument, holding its value, merges the bindings of these parameters
    by position into the environment the [lambda] was evaluated in, and
    evaluates the body with the result as its environment; the value of
    the body is the value of the call, and [env] is put back when it
    returns.  A parameter named [__proto__] is not bound in the body: the
    merge makes its binding the prototype of the call environment, and the
    merge with the base environment that follows does not carry it over,
    so [((lambda (__proto__) __proto__) 5)] throws. *)
Theorem lambda_call_binds (fuel : nat) (params : list NameBinding) (body : Expr)
    (args : list Expr) (st st1 : State native) (argValues : list (Value native)) :
  let signature := map (fun param => {| param_name := id param;
                                        param_type := None;
                                        variadic := false |}) params in
  (mapE (fun arg => eval_private runNative (S fuel) arg None None) args st
   = Done (Normal argValues) st1 ->
   checkCallAgainstTypeSignature argValues signature st1 = Done (Normal tt) st1 ->
   eval_private runNative (S (S fuel)) (Call (Lambda params body) args) None None st
   = match eval_private runNative (S fuel) body
             (Some (bindParams (default ∅ (env st)) (length (cells st1))
                               signature argValues)) None
             {| baseEnv := baseEnv st1; env := env st1; defines := defines st1;
                cells := cells st1 ++ (Some <$> take (length signature) argValues) |}
     with
     | Done (Normal v) st2 => Done (Normal v) (withEnv st2 (env st))
     | Done (Throw msg) st2 => Done (Throw msg) st2
     | OutOfFuel => OutOfFuel
     end)
  /\ (exists st',
        eval_private runNative 3
          (Call (Lambda [binding "__proto__"] (Var "__proto__")) [Lit (DNumber 5)])
          None None (newEvaluator ∅ noDefines)
        = Done (Throw "unbound variable: __proto__") st')
  /\ (exists st',
        eval_private runNative 3
          (Call (Lambda [binding "x"] (Var "x")) [Lit (DNumber 5)])
          None None (newEvaluator ∅ noDefines)
        = Done (Normal (VNumber 5)) st').
Proof.
  intros signature. split; [|split; eexists; vm_compute; reflexivity].
  intros Hargs Hcheck.
  rewrite (eval_private_unfold runNative (S fuel)). cbv zeta. rewrite withEnv_env.
  cbn [eval_]. unfold bindE at 1. rewrite eval_private_Lambda.
  unfold bindE at 1. rewrite Hargs.
  unfold call_body. unfold bindE at 1. fold signature. rewrite Hcheck.
  unfold bindE at 1. rewrite call_loop. reflexivity.
Qed.

End EvaluatorFurther.

(** X24 on [(1 _)], whose argument is a hole. *)
Lemma call_non_function_witness :
  eval_private noNative 2 (Call (Lit (DNumber 1)) [Hole]) None None
               (newEvaluator ∅ noDefines)
  = Done (Throw "cannot call non-function") (newEvaluator ∅ noDefines).
Proof.
  apply (call_non_function noNative 1 (Lit (DNumber 1)) [Hole]
           (newEvaluator ∅ noDefines) (newEvaluator ∅ noDefines) (VNumber 1)).
  - reflexivity.
  - discriminate.
Defined.

(** X25 on the closure [(lambda (x) x)] called with 42, with an evaluator
    whose [env] holds a binding of [x] and with one whose [env] is unset. *)
Lemma closure_call_lexical_witness :
  call noNative 2 (VFn [{| param_name := "x"; param_type := None; variadic := false |}]
                       (Interpreted (Var "x")) None)
       [VNumber 42]
       (withEnv (newEvaluator ∅ noDefines)
                (Some {[ "x" := {| name := "x"; cell := 7 |} ]}))
  = Done (Normal (VNumber 42))
         {| baseEnv := ∅;
            env := Some {[ "x" := {| name := "x"; cell := 7 |} ]};
            defines := noDefines;
            cells := [Some (VNumber 42)] |}.
Proof.
  apply (proj1 (closure_call_lexical noNative 2
                  [{| param_name := "x"; param_type := None; variadic := false |}]
                  (Var "x") None [VNumber 42]
                  (Some {[ "x" := {| name := "x"; cell := 7 |} ]})
                  (newEvaluator ∅ noDefines))
               (VNumber 42)
               {| baseEnv := ∅; env := None; defines := noDefines;
                  cells := [Some (VNumber 42)] |}).
  vm_compute. reflexivity.
Defined.

(** X26 on [(let ((x 5)) x)] with an evaluator whose [Defines] has a
    producer for [x]. *)
Lemma let_binding_visible_witness :
  eval_private noNative 2 (Let [(binding "x", Lit (DNumber 5))] (Var "x")) None None
    (newEvaluator ∅ {| thunks := {[ "x" := Lit (DNumber 7) ]}; cached := ∅ |})
  = Done (Normal (VNumber 5))
         {| baseEnv := ∅; env := None;
            defines := {| thunks := {[ "x" := Lit (DNumber 7) ]}; cached := ∅ |};
            cells := [Some (VNumber 5)] |}.
Proof.
  apply (let_binding_visible noNative 0 (binding "x") (Lit (DNumber 5))
           (newEvaluator ∅ {| thunks := {[ "x" := Lit (DNumber 7) ]}; cached := ∅ |})
           (newEvaluator ∅ {| thunks := {[ "x" := Lit (DNumber 7) ]}; cached := ∅ |})
           (VNumber 5)).
  reflexivity.
Defined.

(** X27 on the sequence of [#f] and ["result"]. *)
Lemma sequence_returns_last_witness :
  eval_private noNative 2
    (Sequence ([Lit (DBool false)] ++ [Lit (DString "result")])) None None
    (newEvaluator ∅ noDefines)
  = Done (Normal (VString "result")) (newEvaluator ∅ noDefines).
Proof.
  apply (proj1 (sequence_returns_last noNative 1 [Lit (DBool false)]
                  (Lit (DString "result"))
                  (newEvaluator ∅ noDefines) (newEvaluator ∅ noDefines)
                  (newEvaluator ∅ noDefines) [VBool false] (VString "result"))).
  - reflexivity.
  - reflexivity.
Defined.

(** X28 on [((lambda (x) x) 42)]. *)
Lemma lambda_call_binds_witness :
  eval_private noNative 2
    (Call (Lambda [binding "x"] (Var "x")) [Lit (DNumber 42)]) None None
    (newEvaluator ∅ noDefines)
  = Done (Normal (VNumber 42))
         {| baseEnv := ∅; env := None; defines := noDefines;
            cells := [Some (VNumber 42)] |}.
Proof.
  rewrite (proj1 (lambda_call_binds noNative 0 [binding "x"] (Var "x")
                    [Lit (DNumber 42)]
                    (newEvaluator ∅ noDefines) (newEvaluator ∅ noDefines)
                    [VNumber 42])).
  - reflexivity.
  - reflexivity.
  - reflexivity.
Defined.
